(** * NearestNeighborsFLANN: a shallow embedding

    This development models [ompl::NearestNeighborsFLANN]
    (src/ompl/datastructures/NearestNeighborsFLANN.h), the adapter that
    makes a build-once FLANN index behave like a mutable neighbour set.

    Modelling decisions, all visible in the definitions below:
    - [std::vector<_T> data_] is a record [vector]: an allocation
      [block], its storage [cells] (one cell per unit of capacity, [None]
      for storage that was never written) and the logical length
      [vsize].  Growth follows libstdc++: [reserve] and a growing copy
      assignment allocate exactly what is asked, [push_back] on a full
      vector allocates [size + max size 1].
    - FLANN indexes references: an index point is a pointer
      [(block, offset)] into the storage of [data_].  Reading through a
      pointer whose block was released, or whose cell was never written,
      is undefined behaviour and is modelled by [None].
    - [unsigned int] and [int] conversions are written out with their
      wrap-around ([to_uint], [to_int]); [std::size_t] is not bounded.
    - distances ([double]) are idealised as rationals and only compared.
    - the index engine is exact: the search parameters are carried by
      the store but do not change what a search returns, and the rebuild
      threshold passed to [addPoints] (the largest [float] divided by
      [size()]) never makes the engine rebuild on its own.
    - the development covers the primary template, in which each element
      is one row of the matrices handed to FLANN ([dimension_] is 1) and
      the index calls back into [distFun_]; the [flann::L2<double>]
      specialisation of [createIndex] is not modelled.
    - [rebuild_log_] is a history variable: [rebuildIndex] records its
      capacity argument there each time its body runs.  No code reads it. *)

From Stdlib Require Import QArith.
From stdpp Require Import base tactics option list sorting numbers strings.

Local Open Scope nat_scope.

(** ** Results of operations that can throw *)

Inductive exn : Type :=
  | Exception (what : string)   (* ompl::Exception *)
  | length_error.               (* std::length_error from vector::resize *)

Inductive outcome (A : Type) : Type :=
  | Ret (a : A)
  | Throw (e : exn)
  | Undefined.
Arguments Ret {A} a.
Arguments Throw {A} e.
Arguments Undefined {A}.

(** Undefined behaviour inside an operation surfaces as [Undefined]. *)
Definition of_option {A} (o : option A) : outcome A :=
  match o with
  | Some a => Ret a
  | None => Undefined
  end.

(** ** Machine integers *)

(** Conversion to a 32-bit [unsigned int]. *)
Definition to_uint (n : nat) : nat :=
  N.to_nat (N.of_nat n mod 2 ^ 32)%N.

(** Conversion to a 32-bit [int] (two's complement). *)
Definition to_int (z : Z) : Z :=
  ((z + 2 ^ 31) mod 2 ^ 32 - 2 ^ 31)%Z.

Definition fits_uint (n : nat) : Prop := (N.of_nat n < 2 ^ 32)%N.

(** ** Configuration types *)

(** The index kinds for which the header generates wrapper classes. *)
Inductive IndexParams : Type :=
  | LinearIndexParams
  | HierarchicalClusteringIndexParams
  | KDTreeIndexParams
  | KMeansIndexParams
  | CompositeIndexParams
  | KDTreeSingleIndexParams.

(** [flann::SearchParams(checks, eps, sorted)]. *)
Record SearchParams : Type := mkSearchParams {
  checks : Z;
  eps : Q;
  sorted : bool
}.

(** A pointer into the storage of a vector: allocation and offset. *)
Definition ptr : Type := nat * nat.

(** Order on search results: by distance. *)
Definition dist_le (a b : Q * nat) : Prop := Qle_bool a.1 b.1 = true.

#[global] Instance dist_le_dec : RelDecision dist_le.
Proof. intros a b. unfold dist_le. apply _. Defined.

Section Store.
Context {T : Type} `{EqDecision T}.

(** ** [std::vector<_T>] *)

Record vector : Type := mkVector {
  block : nat;
  cells : list (option T);
  vsize : nat
}.

Definition capacity (v : vector) : nat := length (cells v).

(** The elements in the logical range [0 .. vsize-1]. *)
Definition elements (v : vector) : list T :=
  omap id (take (vsize v) (cells v)).

Definition empty_vector : vector := mkVector 0 [] 0.

(** [clear()]: the length becomes zero, the storage is kept. *)
Definition vec_clear (v : vector) : vector :=
  mkVector (block v) (cells v) 0.

(** [reserve(n)]: a larger request moves the elements to a new
    allocation of exactly [n] cells. *)
Definition vec_reserve (n : nat) (v : vector) : vector :=
  if capacity v <? n
  then mkVector (S (block v))
                (take (vsize v) (cells v) ++ replicate (n - vsize v) None)
                (vsize v)
  else v.

(** Copy assignment [v = l]: reuses the storage when [l] fits,
    otherwise allocates exactly [length l] cells. *)
Definition vec_assign (l : list T) (v : vector) : vector :=
  if capacity v <? length l
  then mkVector (S (block v)) (Some <$> l) (length l)
  else mkVector (block v)
                ((Some <$> l) ++ drop (length l) (cells v))
                (length l).

(** [push_back(x)]. *)
Definition vec_push_back (x : T) (v : vector) : vector :=
  if vsize v <? capacity v
  then mkVector (block v) (<[vsize v := Some x]> (cells v)) (S (vsize v))
  else mkVector (S (block v))
                (take (vsize v) (cells v) ++ Some x ::
                   replicate (vsize v `max` 1 - 1) None)
                (S (vsize v)).

(** A store through the iterator [begin() + i]; it does not change
    the length, and is undefined outside the allocation. *)
Definition vec_write (i : nat) (x : T) (v : vector) : option vector :=
  if i <? capacity v
  then Some (mkVector (block v) (<[i := Some x]> (cells v)) (vsize v))
  else None.

(** [std::copy(l.begin(), l.end(), v.begin() + i)]. *)
Fixpoint vec_copy (l : list T) (i : nat) (v : vector) : option vector :=
  match l with
  | [] => Some v
  | x :: l' => v' ← vec_write i x v; vec_copy l' (S i) v'
  end.

(** Reading through a pointer. *)
Definition deref (v : vector) (p : ptr) : option T :=
  if decide (p.1 = block v) then mjoin (cells v !! p.2) else None.

(** ** The backend index *)

(** Modelled from the spec: the index engine (FLANN's [flann::Index])
    is an external collaborator of which only the calls appear in the
    header.  Following the interface contract of the specification,
    it is an exact engine over a table of points, each a pointer to
    the element it indexes and a removed flag; ids are positions
    in the table and stay stable until the index is built again. *)
Record Index : Type := mkIndex {
  points : list (ptr * bool);
  built_with : IndexParams
}.

(** The rows of a [flann::Matrix] of [n] elements starting at [first]:
    FLANN keeps the row pointers, not copies of the elements. *)
Definition matrix (first : ptr) (n : nat) : list (ptr * bool) :=
  (λ i, ((first.1, first.2 + i), false)) <$> seq 0 n.

(** Modelled from the spec: [build(points, params, distanceAdapter)]. *)
Definition index_build (first : ptr) (n : nat) (p : IndexParams) : Index :=
  mkIndex (matrix first n) p.

(** Modelled from the spec: [addPoints(handle, points)]. *)
Definition index_addPoints (first : ptr) (n : nat) (idx : Index) : Index :=
  mkIndex (points idx ++ matrix first n) (built_with idx).

(** Modelled from the spec: [removePoint(handle, pointIndex)]; the
    point keeps its id and is skipped by searches and by [size]. *)
Definition index_removePoint (id : nat) (idx : Index) : Index :=
  mkIndex (alter (λ e, (e.1, true)) id (points idx)) (built_with idx).

(** Modelled from the spec: [getPoint(handle, pointIndex)], by stable
    index until the next build; it returns the pointer that was indexed. *)
Definition index_getPoint (idx : Index) (id : nat) : option ptr :=
  fst <$> points idx !! id.

(** Ids and pointers of the points that were not removed. *)
Fixpoint live_from (i : nat) (pts : list (ptr * bool)) : list (nat * ptr) :=
  match pts with
  | [] => []
  | (p, removed) :: pts' =>
      if removed then live_from (S i) pts'
      else (i, p) :: live_from (S i) pts'
  end.

Definition live (idx : Index) : list (nat * ptr) := live_from 0 (points idx).

(** Modelled from the spec: [size(handle)]. *)
Definition index_size (idx : Index) : nat := length (live idx).

(** The distance of every live point to the query.  The distance
    adapter reads the elements through the stored pointers. *)
Definition candidates (mem : vector) (dist : T → T → Q) (idx : Index)
    (q : T) : option (list (Q * nat)) :=
  mapM (λ e, v ← deref mem e.2; Some (dist q v, e.1)) (live idx).

(** Modelled from the spec: [knnSearch(handle, query, k, searchParams)],
    the ids of the [k] nearest live points, nearest first. *)
Definition index_knnSearch (mem : vector) (dist : T → T → Q) (idx : Index)
    (q : T) (k : nat) : option (list nat) :=
  c ← candidates mem dist idx q;
  Some ((take k (merge_sort dist_le c)).*2).

(** Modelled from the spec: [radiusSearch(handle, query, radius,
    searchParams)], the ids of the live points at distance at most
    [radius], nearest first. *)
Definition index_radiusSearch (mem : vector) (dist : T → T → Q)
    (idx : Index) (q : T) (radius : Q) : option (list nat) :=
  c ← candidates mem dist idx q;
  Some ((filter (λ e, Qle_bool e.1 radius = true) (merge_sort dist_le c)).*2).

(** ** The store *)

Record NearestNeighborsFLANN : Type := mkStore {
  distFun_ : T → T → Q;
  data_ : vector;
  index_ : option Index;
  params_ : IndexParams;
  searchParams_ : SearchParams;
  dimension_ : nat;
  rebuild_log_ : list nat
}.

Definition set_distFun (f : T → T → Q) (s : NearestNeighborsFLANN) :=
  mkStore f (data_ s) (index_ s) (params_ s) (searchParams_ s)
          (dimension_ s) (rebuild_log_ s).
Definition set_data (d : vector) (s : NearestNeighborsFLANN) :=
  mkStore (distFun_ s) d (index_ s) (params_ s) (searchParams_ s)
          (dimension_ s) (rebuild_log_ s).
Definition set_index (i : option Index) (s : NearestNeighborsFLANN) :=
  mkStore (distFun_ s) (data_ s) i (params_ s) (searchParams_ s)
          (dimension_ s) (rebuild_log_ s).
Definition set_params (p : IndexParams) (s : NearestNeighborsFLANN) :=
  mkStore (distFun_ s) (data_ s) (index_ s) p (searchParams_ s)
          (dimension_ s) (rebuild_log_ s).
Definition set_searchParams (sp : SearchParams) (s : NearestNeighborsFLANN) :=
  mkStore (distFun_ s) (data_ s) (index_ s) (params_ s) sp
          (dimension_ s) (rebuild_log_ s).
Definition set_checks (c : Z) (s : NearestNeighborsFLANN) :=
  set_searchParams
    (mkSearchParams c (eps (searchParams_ s)) (sorted (searchParams_ s))) s.
Definition log_rebuild (capacity : nat) (s : NearestNeighborsFLANN) :=
  mkStore (distFun_ s) (data_ s) (index_ s) (params_ s) (searchParams_ s)
          (dimension_ s) (capacity :: rebuild_log_ s).

(** The constructor (lines 91-94): no index, [searchParams_(32, 0.,
    true)], [dimension_(1)].  The distance function lives in the base
    class [NearestNeighbors<_T>]; the store is created with it. *)
Definition new_store (params : IndexParams) (distFun : T → T → Q)
    : NearestNeighborsFLANN :=
  mkStore distFun empty_vector None params (mkSearchParams 32 0 true) 1 [].

(** [clear()], lines 102-110. *)
Definition clear (s : NearestNeighborsFLANN) : NearestNeighborsFLANN :=
  set_data (vec_clear (data_ s)) (set_index None s).

(** [size()], lines 208-211. *)
Definition size (s : NearestNeighborsFLANN) : nat :=
  match index_ s with
  | Some idx => index_size idx
  | None => 0
  end.

(** [createIndex(mat)], lines 274-278, for the matrix of [n] rows
    starting at [first]. *)
Definition createIndex (first : ptr) (n : nat) (s : NearestNeighborsFLANN)
    : NearestNeighborsFLANN :=
  set_index (Some (index_build first n (params_ s))) s.

(** [*index_->getPoint(id)]. *)
Definition getPoint (s : NearestNeighborsFLANN) (idx : Index) (id : nat)
    : option T :=
  p ← index_getPoint idx id; deref (data_ s) p.

(** [nearestK(data, k, nbh)], lines 184-194; [nbh] is resized to the
    number of ids found and every entry is assigned, so the result does
    not depend on what [nbh] held. *)
Definition nearestK (data : T) (k : nat) (s : NearestNeighborsFLANN)
    : option (list T) :=
  match index_ s with
  | Some idx =>
      indices ← index_knnSearch (data_ s) (distFun_ s) idx data k;
      mapM (getPoint s idx) indices
  | None => Some []
  end.

(** [nearestR(data, radius, nbh)], lines 196-206.  The count is held in
    an [int]; [resize] with a negative count throws. *)
Definition nearestR (data : T) (radius : Q) (s : NearestNeighborsFLANN)
    : outcome (list T) :=
  match index_ s with
  | Some idx =>
      match index_radiusSearch (data_ s) (distFun_ s) idx data radius with
      | Some indices =>
          let k := to_int (Z.of_nat (length indices)) in
          if (k <? 0)%Z then Throw length_error
          else of_option (mapM (getPoint s idx) (take (Z.to_nat k) indices))
      | None => Undefined
      end
  | None => Ret []
  end.

(** [nearest(data)], lines 171-183; [head] is the read of
    [indices[0][0]]. *)
Definition nearest (data : T) (s : NearestNeighborsFLANN) : outcome T :=
  if decide (size s = 0)
  then Throw (Exception "No elements found in nearest neighbors data structure")
  else of_option (idx ← index_ s;
                  indices ← index_knnSearch (data_ s) (distFun_ s) idx data 1;
                  first ← head indices;
                  getPoint s idx first).

(** [list(data)], lines 213-226 (the name [list] is taken by the list
    type): the search parameters are widened for the query and restored
    afterwards, so the store is returned with the result. *)
Definition list_ (s : NearestNeighborsFLANN)
    : option (list T * NearestNeighborsFLANN) :=
  let sz := size s in
  if decide (sz = 0) then Some ([], s)
  else
    idx ← index_ s;
    dummy ← getPoint s idx 0;
    let checks := checks (searchParams_ s) in
    let s1 := set_checks (to_int (Z.of_nat (size s))) s in
    data ← nearestK dummy sz s1;
    Some (data, set_checks checks s1).

(** [add(const std::vector<_T>&)], lines 133-154, and [rebuildIndex],
    lines 282-293, call each other.  Each is written over the other as
    a parameter; the recursion is closed below.  With an index the batch
    is copied to [data_.begin() + oldSize] and the length of [data_] is
    left as it is. *)
Definition add_vec_with
    (rebuildIndex : nat → NearestNeighborsFLANN → option NearestNeighborsFLANN)
    (data : list T) (s : NearestNeighborsFLANN)
    : option NearestNeighborsFLANN :=
  let oldSize := to_uint (vsize (data_ s)) in
  let newSize := to_uint (oldSize + length data) in
  let rebuild := bool_decide (is_Some (index_ s))
                 && (capacity (data_ s) <? newSize) in
  s1 ← (if rebuild
        then rebuildIndex (to_uint (2 * oldSize) `max` newSize) s
        else Some s);
  match index_ s1 with
  | Some idx =>
      d ← vec_copy data oldSize (data_ s1);
      Some (set_index
              (Some (index_addPoints (block d, oldSize) (length data) idx))
              (set_data d s1))
  | None =>
      let s2 := set_data (vec_assign data (data_ s1)) s1 in
      Some (createIndex (block (data_ s2), 0) (vsize (data_ s2)) s2)
  end.

Definition rebuildIndex_with
    (add_vec : list T → NearestNeighborsFLANN → option NearestNeighborsFLANN)
    (capacity : nat) (s : NearestNeighborsFLANN)
    : option NearestNeighborsFLANN :=
  match index_ s with
  | Some _ =>
      '(data, s1) ← list_ (log_rebuild capacity s);
      let s2 := clear s1 in
      let s3 := if decide (capacity = 0) then s2
                else set_data (vec_reserve capacity (data_ s2)) s2 in
      add_vec data s3
  | None => Some s
  end.

(** Inside [rebuildIndex] the store was just cleared, so the nested
    [add] never rebuilds: its own [rebuildIndex] is not reached. *)
Definition rebuildIndex
    : nat → NearestNeighborsFLANN → option NearestNeighborsFLANN :=
  rebuildIndex_with (add_vec_with (λ _ _, None)).

Definition add_vec
    : list T → NearestNeighborsFLANN → option NearestNeighborsFLANN :=
  add_vec_with rebuildIndex.

(** [add(const _T&)], lines 118-132. *)
Definition add (data : T) (s : NearestNeighborsFLANN)
    : option NearestNeighborsFLANN :=
  let rebuild := bool_decide (is_Some (index_ s))
                 && (capacity (data_ s) <? vsize (data_ s) + 1) in
  s1 ← (if rebuild
        then rebuildIndex (to_uint (2 * capacity (data_ s))) s
        else Some s);
  let s2 := set_data (vec_push_back data (data_ s1)) s1 in
  let back := (block (data_ s2), vsize (data_ s2) - 1) in
  match index_ s2 with
  | Some idx => Some (set_index (Some (index_addPoints back 1 idx)) s2)
  | None => Some (createIndex back 1 s2)
  end.

(** [remove(data)], lines 155-170; [head] is the read of
    [indices[0][0]], undefined when the search found nothing. *)
Definition remove (data : T) (s : NearestNeighborsFLANN)
    : option (bool * NearestNeighborsFLANN) :=
  match index_ s with
  | None => Some (false, s)
  | Some idx =>
      indices ← index_knnSearch (data_ s) (distFun_ s) idx data 1;
      first ← head indices;
      elt ← getPoint s idx first;
      if decide (elt = data)
      then s' ← rebuildIndex 0
                  (set_index (Some (index_removePoint first idx)) s);
           Some (true, s')
      else Some (false, s)
  end.

(** [setDistanceFunction], lines 112-116.  Modelled from the spec: the
    setter of the base class replaces the comparator. *)
Definition setDistanceFunction (distFun : T → T → Q)
    (s : NearestNeighborsFLANN) : option NearestNeighborsFLANN :=
  rebuildIndex 0 (set_distFun distFun s).

(** [setIndexParams], lines 232-236. *)
Definition setIndexParams (params : IndexParams)
    (s : NearestNeighborsFLANN) : option NearestNeighborsFLANN :=
  rebuildIndex 0 (set_params params s).

Definition getIndexParams (s : NearestNeighborsFLANN) : IndexParams :=
  params_ s.

Definition setSearchParams (searchParams : SearchParams)
    (s : NearestNeighborsFLANN) : NearestNeighborsFLANN :=
  set_searchParams searchParams s.

Definition getSearchParams (s : NearestNeighborsFLANN) : SearchParams :=
  searchParams_ s.

Definition getContainerSize (s : NearestNeighborsFLANN) : nat :=
  dimension_ s.

(** ** Well-formed states *)

(** Every pointer of the index can be read. *)
Definition index_ok (s : NearestNeighborsFLANN) : Prop :=
  ∀ idx, index_ s = Some idx →
    Forall (λ e, is_Some (deref (data_ s) e.1)) (points idx).

(** The elements the index holds: what its live points refer to. *)
Definition stored (s : NearestNeighborsFLANN) : option (list T) :=
  match index_ s with
  | Some idx => mapM (λ e, deref (data_ s) e.2) (live idx)
  | None => Some []
  end.

(** The buffer and the index are in step: the cells of the logical
    range are written, and the index, when present, has exactly one live
    point per cell of that range; without an index the buffer is empty. *)
Definition in_step (s : NearestNeighborsFLANN) : Prop :=
  vsize (data_ s) ≤ capacity (data_ s) ∧
  take (vsize (data_ s)) (cells (data_ s)) = Some <$> elements (data_ s) ∧
  match index_ s with
  | Some idx => points idx = matrix (block (data_ s), 0) (vsize (data_ s))
  | None => vsize (data_ s) = 0
  end.

(** The capacity is at most twice the length: what growth by doubling
    keeps true while elements are only added. *)
Definition roomy (s : NearestNeighborsFLANN) : Prop :=
  capacity (data_ s) ≤ 1 `max` (2 * vsize (data_ s)).

(** A search result [c] (distance and id) stands for the element [x]. *)
Definition hit (s : NearestNeighborsFLANN) (idx : Index) (q : T)
    (c : Q * nat) (x : T) : Prop :=
  getPoint s idx c.2 = Some x ∧ c.1 = distFun_ s q x.

(** Ascending distance from a query. *)
Definition nearer (dist : T → T → Q) (q : T) (a b : T) : Prop :=
  Qle (dist q a) (dist q b).

(** The state [add] leaves once the element was pushed and the index
    extended or created. *)
Definition pushed (x : T) (s : NearestNeighborsFLANN) : NearestNeighborsFLANN :=
  let s2 := set_data (vec_push_back x (data_ s)) s in
  let back := (block (data_ s2), vsize (data_ s2) - 1) in
  match index_ s2 with
  | Some idx => set_index (Some (index_addPoints back 1 idx)) s2
  | None => createIndex back 1 s2
  end.

(** ** Sequences of calls *)

Inductive call : Type :=
  | Add (x : T)
  | AddVec (l : list T)
  | Remove (x : T).

(** A run keeps, next to the store, the number of elements added and
    the number of calls to [remove] that returned [true]. *)
Definition step (c : call) (st : NearestNeighborsFLANN * nat * nat)
    : option (NearestNeighborsFLANN * nat * nat) :=
  let '(s, added, removed) := st in
  match c with
  | Add x => s' ← add x s; Some (s', S added, removed)
  | AddVec l => s' ← add_vec l s; Some (s', added + length l, removed)
  | Remove x =>
      '(b, s') ← remove x s;
      Some (s', added, if b : bool then S removed else removed)
  end.

Fixpoint run (cs : list call) (st : NearestNeighborsFLANN * nat * nat)
    : option (NearestNeighborsFLANN * nat * nat) :=
  match cs with
  | [] => Some st
  | c :: cs' => st' ← step c st; run cs' st'
  end.

(** ** All the calls that change a store *)

Inductive mutation : Type :=
  | MClear
  | MSetDistanceFunction (distFun : T → T → Q)
  | MAdd (x : T)
  | MAddVec (l : list T)
  | MRemove (x : T)
  | MSetIndexParams (params : IndexParams)
  | MSetSearchParams (searchParams : SearchParams).

Definition mutate (m : mutation) (s : NearestNeighborsFLANN)
    : option NearestNeighborsFLANN :=
  match m with
  | MClear => Some (clear s)
  | MSetDistanceFunction distFun => setDistanceFunction distFun s
  | MAdd x => add x s
  | MAddVec l => add_vec l s
  | MRemove x => snd <$> remove x s
  | MSetIndexParams params => setIndexParams params s
  | MSetSearchParams searchParams => Some (setSearchParams searchParams s)
  end.

Fixpoint mutate_all (ms : list mutation) (s : NearestNeighborsFLANN)
    : option NearestNeighborsFLANN :=
  match ms with
  | [] => Some s
  | m :: ms' => s' ← mutate m s; mutate_all ms' s'
  end.

(** What holds of every store the calls can produce: the buffer's
    length is within its capacity and never ahead of the index, a store
    without an index has an empty buffer, and an index was built with
    the parameters the store holds. *)
Definition sound (s : NearestNeighborsFLANN) : Prop :=
  vsize (data_ s) ≤ capacity (data_ s)
  ∧ vsize (data_ s) ≤ size s
  ∧ (index_ s = None → vsize (data_ s) = 0)
  ∧ (∀ idx, index_ s = Some idx → built_with idx = params_ s).

(** The settings of [s'] are those of [s]. *)
Definition same_config (s s' : NearestNeighborsFLANN) : Prop :=
  distFun_ s' = distFun_ s ∧ params_ s' = params_ s
  ∧ searchParams_ s' = searchParams_ s ∧ dimension_ s' = dimension_ s.

(** The k nearest elements of a list, as the index computes them over
    a buffer holding that list: ties keep the order of the list. *)
Definition knn (dist : T → T → Q) (q : T) (k : nat) (l : list T)
    : option (list T) :=
  mapM (λ id, l !! id)
       (take k (merge_sort dist_le (imap (λ i x, (dist q x, i)) l))).*2.

(** The elements of a list within [radius] of the query. *)
Definition within (dist : T → T → Q) (q : T) (radius : Q) (l : list T)
    : list T :=
  filter (λ x, Qle_bool (dist q x) radius = true) l.

End Store.

Arguments vector : clear implicits.
Arguments NearestNeighborsFLANN : clear implicits.
Arguments call : clear implicits.
Arguments mutation : clear implicits.

(** ** Runs on integers with [|a - b|] as distance *)

Definition absdist (a b : Z) : Q := inject_Z (Z.abs (a - b)).

Definition fresh : NearestNeighborsFLANN Z :=
  new_store LinearIndexParams absdist.

(** [add([1, 2]); add([3])] and then [add(4)], on a new store. *)
Definition bulk_bulk : option (NearestNeighborsFLANN Z) :=
  s ← add_vec [1; 2]%Z fresh; add_vec [3]%Z s.

Definition bulk_bulk_single : option (NearestNeighborsFLANN Z) :=
  s ← bulk_bulk; add 4%Z s.

(** [add([1, 9]); add([3])] on a new store. *)
Definition bulk_19_3 : option (NearestNeighborsFLANN Z) :=
  s ← add_vec [1; 9]%Z fresh; add_vec [3]%Z s.

(** [add([1]); add([2]); add([3]); add(4)] on a new store, and then
    [add(5)]. *)
Definition bulks_single : option (NearestNeighborsFLANN Z) :=
  s ← add_vec [1]%Z fresh; s ← add_vec [2]%Z s; s ← add_vec [3]%Z s;
  add 4%Z s.

Definition bulks_single_single : option (NearestNeighborsFLANN Z) :=
  s ← bulks_single; add 5%Z s.

(** The store after [add(1); add(5)] on a new store. *)
Definition store_1_5 : NearestNeighborsFLANN Z :=
  mkStore absdist (mkVector 2 [Some 1%Z; Some 5%Z] 2)
    (Some (mkIndex [((2, 0), false); ((2, 1), false)] LinearIndexParams))
    LinearIndexParams (mkSearchParams 32 0 true) 1 [2].


(** The store after [add([1, 2]); add([3])]: its index is one element
    ahead of its buffer. *)
Definition store_ahead : NearestNeighborsFLANN Z := default fresh bulk_bulk.

(** The store after [add([1, 2])] and the store after [add(5)]. *)
Definition store_1_2 : NearestNeighborsFLANN Z :=
  default fresh (add_vec [1; 2]%Z fresh).

Definition store_5 : NearestNeighborsFLANN Z := default fresh (add 5%Z fresh).

(** * Properties *)

(** ** Machine integers *)

Lemma to_uint_small (n : nat) : fits_uint n → to_uint n = n.
Proof.
  unfold fits_uint, to_uint. intros Hn.
  rewrite N.mod_small by done. apply Nat2N.id.
Qed.

Lemma fits_uint_le (n m : nat) : n ≤ m → fits_uint m → fits_uint n.
Proof. unfold fits_uint. intros Hle Hm. eapply N.le_lt_trans; [|done]. lia. Qed.

(** ** The order on search results *)

#[global] Instance dist_le_total : Total dist_le.
Proof.
  intros [a i] [b j]. unfold dist_le. simpl.
  rewrite !Qle_bool_iff.
  destruct (Qlt_le_dec a b) as [Hlt|Hle]; [left; by apply Qlt_le_weak | by right].
Qed.

#[global] Instance dist_le_trans : Transitive dist_le.
Proof.
  intros [a i] [b j] [c k]. unfold dist_le. simpl.
  rewrite !Qle_bool_iff. apply Qle_trans.
Qed.

Lemma merge_sort_dist_nil : merge_sort dist_le [] = [].
Proof. reflexivity. Qed.

(** A pointwise relation can be carried along a permutation. *)
Lemma Forall2_Permutation_l {A B} (P : A → B → Prop) (l l' : list A)
    (k : list B) :
  l ≡ₚ l' → Forall2 P l k → ∃ k', k' ≡ₚ k ∧ Forall2 P l' k'.
Proof.
  intros Hp. revert k. induction Hp as [|a l l' _ IH|a b l|l l1 l2 _ IH1 _ IH2];
    intros k Hk.
  - apply Forall2_nil_inv_l in Hk as ->. by exists [].
  - apply Forall2_cons_inv_l in Hk as (y & k0 & Hy & Hk0 & ->).
    destruct (IH _ Hk0) as (k' & Hk' & HF). exists (y :: k').
    split; [by f_equiv|by constructor].
  - apply Forall2_cons_inv_l in Hk as (y & k0 & Hy & Hk0 & ->).
    apply Forall2_cons_inv_l in Hk0 as (z & k1 & Hz & Hk1 & ->).
    exists (z :: y :: k1). split; [apply perm_swap|by repeat constructor].
  - destruct (IH1 _ Hk) as (k1 & Hk1 & HF1).
    destruct (IH2 _ HF1) as (k2 & Hk2 & HF2).
    exists k2. split; [by etrans|done].
Qed.

Section Facts.
Context {T : Type} `{EqDecision T}.
Implicit Types (s : NearestNeighborsFLANN T) (v : vector T) (idx : Index).
Implicit Types (l : list T) (x : T).

(** ** The table of points *)

Lemma live_from_app i pts1 pts2 :
  live_from i (pts1 ++ pts2)
  = live_from i pts1 ++ live_from (i + length pts1) pts2.
Proof.
  revert i. induction pts1 as [|[p r] pts1 IH]; intros i; simpl.
  - by rewrite Nat.add_0_r.
  - rewrite IH. replace (S i + length pts1) with (i + S (length pts1)) by lia.
    by destruct r.
Qed.

Lemma length_matrix first n : length (matrix first n) = n.
Proof. unfold matrix. by rewrite length_fmap, length_seq. Qed.

Lemma live_from_matrix_aux i b o j n :
  live_from i ((λ k, ((b, o + k), false)) <$> seq j n)
  = (λ k, (i + k, (b, o + j + k))) <$> seq 0 n.
Proof.
  revert i j. induction n as [|n IH]; intros i j; [done|].
  simpl. rewrite IH. f_equal.
  - by rewrite !Nat.add_0_r.
  - rewrite <- (fmap_S_seq 0), <- list_fmap_compose.
    apply list_fmap_ext. intros _ k _. simpl. f_equal; [lia|f_equal; lia].
Qed.

Lemma live_from_matrix i first n :
  live_from i (matrix first n)
  = (λ k, (i + k, (first.1, first.2 + k))) <$> seq 0 n.
Proof.
  unfold matrix. rewrite live_from_matrix_aux.
  apply list_fmap_ext. intros _ k _. by rewrite Nat.add_0_r.
Qed.

Lemma length_live_matrix i first n : length (live_from i (matrix first n)) = n.
Proof. by rewrite live_from_matrix, length_fmap, length_seq. Qed.

Lemma index_size_build first n p : index_size (index_build first n p) = n.
Proof. apply length_live_matrix. Qed.

Lemma index_size_addPoints first n idx :
  index_size (index_addPoints first n idx) = index_size idx + n.
Proof.
  unfold index_size, live. simpl.
  by rewrite live_from_app, length_app, length_live_matrix.
Qed.

(** Every live id names a point of the table that is not removed. *)
Lemma live_from_lookup i pts id p :
  (id, p) ∈ live_from i pts → i ≤ id ∧ pts !! (id - i) = Some (p, false).
Proof.
  revert i. induction pts as [|[p' r] pts IH]; intros i; simpl.
  - by intros ?%elem_of_nil.
  - intros Hin.
    assert ((id, p) ∈ live_from (S i) pts →
            i ≤ id ∧ ((p', r) :: pts) !! (id - i) = Some (p, false)) as Htl.
    { intros [Hle Hlk]%IH. split; [lia|].
      replace (id - i) with (S (id - S i)) by lia. done. }
    destruct r; [by apply Htl|].
    apply elem_of_cons in Hin as [[= -> ->]|Hin]; [|by apply Htl].
    split; [done|]. by rewrite Nat.sub_diag.
Qed.

(** Removing a live point leaves one live point fewer. *)
Lemma length_live_from_remove i pts id p :
  (id, p) ∈ live_from i pts →
  S (length (live_from i (alter (λ e, (e.1, true)) (id - i) pts)))
  = length (live_from i pts).
Proof.
  revert i. induction pts as [|[p' r] pts IH]; intros i; simpl.
  - by intros ?%elem_of_nil.
  - intros Hin.
    destruct (decide (id = i)) as [->|Hne].
    + rewrite Nat.sub_diag. simpl.
      destruct r; [|done].
      apply live_from_lookup in Hin as [Hle _]. lia.
    + assert ((id, p) ∈ live_from (S i) pts) as Hin'.
      { destruct r; [done|].
        apply elem_of_cons in Hin as [[= ? ?]|?]; [lia|done]. }
      pose proof (live_from_lookup _ _ _ _ Hin') as [Hle _].
      replace (id - i) with (S (id - S i)) by lia. simpl.
      specialize (IH _ Hin'). unfold alter in IH.
      destruct r; simpl; lia.
Qed.

(** ** Searches *)

Lemma candidates_ids v dist idx q c :
  candidates v dist idx q = Some c → c.*2 = (live idx).*1.
Proof.
  unfold candidates. intros Hc%mapM_Some_1.
  induction Hc as [|e r es rs Hf _ IH]; [done|]. rewrite !fmap_cons, IH.
  apply bind_Some in Hf as (w & _ & [= <-]). done.
Qed.

Lemma candidates_length v dist idx q c :
  candidates v dist idx q = Some c → length c = index_size idx.
Proof. unfold candidates, index_size. by intros ->%length_mapM. Qed.

Lemma index_knnSearch_length v dist idx q k ids :
  index_knnSearch v dist idx q k = Some ids →
  length ids = k `min` index_size idx.
Proof.
  unfold index_knnSearch. intros (c & Hc & [= <-])%bind_Some.
  rewrite length_fmap, length_take, merge_sort_Permutation.
  by rewrite (candidates_length _ _ _ _ _ Hc).
Qed.

(** The ids a search returns are ids of live points. *)
Lemma index_knnSearch_live v dist idx q k ids id :
  index_knnSearch v dist idx q k = Some ids → id ∈ ids →
  ∃ p, (id, p) ∈ live idx.
Proof.
  unfold index_knnSearch. intros (c & Hc & [= <-])%bind_Some Hin.
  apply list_elem_of_fmap in Hin as ([d id'] & -> & Hin).
  apply elem_of_take in Hin as (n & Hin & _).
  apply list_elem_of_lookup_2 in Hin. rewrite merge_sort_Permutation in Hin.
  assert (id' ∈ c.*2) as Hid by (apply list_elem_of_fmap; by exists (d, id')).
  rewrite (candidates_ids _ _ _ _ _ Hc) in Hid.
  apply list_elem_of_fmap in Hid as ([id'' p] & Heq & Hid). simpl in Heq.
  subst. by exists p.
Qed.

(** ** Size accounting, in every state *)

Lemma nearestK_length x k s nbh :
  nearestK x k s = Some nbh → length nbh = k `min` size s.
Proof.
  unfold nearestK, size. destruct (index_ s) as [idx|].
  - intros (ids & Hids & Hm)%bind_Some.
    apply length_mapM in Hm. rewrite <- Hm.
    by apply index_knnSearch_length in Hids.
  - intros [= <-]. simpl. lia.
Qed.

Lemma set_checks_restore s c :
  set_checks (checks (searchParams_ s)) (set_checks c s) = s.
Proof. by destruct s as [? ? ? ? [? ? ?] ? ?]. Qed.

Lemma size_set_checks s c : size (set_checks c s) = size s.
Proof. done. Qed.

(** [list] leaves the store as it found it and returns [size] elements. *)
Lemma list_unchanged s l s' : list_ s = Some (l, s') → s' = s.
Proof.
  unfold list_. case_decide; [by intros [= _ <-]|].
  intros (idx & _ & (dummy & _ & (nbh & _ & [= _ <-])%bind_Some)%bind_Some)%bind_Some.
  apply set_checks_restore.
Qed.

Lemma list_length s l s' : list_ s = Some (l, s') → length l = size s.
Proof.
  unfold list_. case_decide as Hsz; [intros [= <- _]; by rewrite Hsz|].
  intros (idx & _ & (dummy & _ & (nbh & Hk & [= <- _])%bind_Some)%bind_Some)%bind_Some.
  apply nearestK_length in Hk. rewrite size_set_checks in Hk. lia.
Qed.

(** ** Closing the recursion between [add] and [rebuildIndex] *)

Lemma vsize_assign l v : vsize (vec_assign l v) = length l.
Proof. unfold vec_assign. by case_match. Qed.

Lemma add_vec_with_noindex rb l s :
  index_ s = None →
  add_vec_with rb l s
  = Some (createIndex (block (vec_assign l (data_ s)), 0) (length l)
            (set_data (vec_assign l (data_ s)) s)).
Proof.
  intros Hidx. unfold add_vec_with. rewrite Hidx. simpl.
  rewrite Hidx. simpl. by rewrite vsize_assign.
Qed.

(** [rebuildIndex] satisfies the equation of the source: its body calls
    the real [add]. *)
Lemma rebuildIndex_unfold capacity s :
  rebuildIndex capacity s = rebuildIndex_with add_vec capacity s.
Proof.
  unfold rebuildIndex, rebuildIndex_with, add_vec.
  destruct (index_ s); [|done].
  destruct (list_ _) as [[data s1]|]; [|done]. simpl.
  by rewrite !add_vec_with_noindex by (by case_decide).
Qed.

Lemma size_createIndex first n s : size (createIndex first n s) = n.
Proof. apply index_size_build. Qed.

Lemma rebuildIndex_size capacity s s' :
  rebuildIndex capacity s = Some s' → size s' = size s.
Proof.
  unfold rebuildIndex, rebuildIndex_with.
  destruct (index_ s) as [idx|] eqn:Hidx; [|by intros [= <-]].
  intros ([data s1] & Hl & Hadd)%bind_Some.
  apply list_length in Hl. simpl in Hadd.
  rewrite add_vec_with_noindex in Hadd by (by case_decide).
  injection Hadd as <-. by rewrite size_createIndex.
Qed.

Lemma add_size x s s' : add x s = Some s' → size s' = size s + 1.
Proof.
  unfold add. intros (s1 & Hs1 & Hadd)%bind_Some.
  assert (size s1 = size s) as <-.
  { destruct (_ && _) in Hs1;
      [by eapply rebuildIndex_size|by injection Hs1 as <-]. }
  simpl in Hadd. unfold size at 2.
  destruct (index_ s1) as [idx|]; injection Hadd as <-.
  - apply index_size_addPoints.
  - by rewrite size_createIndex.
Qed.

Lemma add_vec_size l s s' :
  add_vec l s = Some s' → size s' = size s + length l.
Proof.
  unfold add_vec, add_vec_with. intros (s1 & Hs1 & Hadd)%bind_Some.
  assert (size s1 = size s) as <-.
  { destruct (_ && _) in Hs1;
      [by eapply rebuildIndex_size|by injection Hs1 as <-]. }
  unfold size at 2. destruct (index_ s1) as [idx|].
  - apply bind_Some in Hadd as (d & _ & [= <-]). apply index_size_addPoints.
  - injection Hadd as <-. by rewrite size_createIndex, vsize_assign.
Qed.

Lemma remove_size x s b s' :
  remove x s = Some (b, s') →
  if b then size s = S (size s') else s' = s.
Proof.
  unfold remove. destruct (index_ s) as [idx|] eqn:Hidx; [|by intros [= <- <-]].
  intros (ids & Hids & (first & Hfirst & (elt & _ & Hrm)%bind_Some)%bind_Some)%bind_Some.
  case_decide; [|by injection Hrm as <- <-].
  apply bind_Some in Hrm as (s2 & Hs2 & [= <- <-]).
  apply rebuildIndex_size in Hs2. rewrite Hs2.
  destruct (index_knnSearch_live _ _ _ _ _ _ first Hids) as [p Hp].
  { destruct ids; [done|]. injection Hfirst as ->. apply elem_of_cons; by left. }
  unfold size. rewrite Hidx. simpl. unfold index_size, live. simpl.
  pose proof (length_live_from_remove 0 _ _ _ Hp) as Hlen.
  by rewrite Nat.sub_0_r in Hlen.
Qed.

(** ** Queries on readable states *)

Lemma getPoint_live s idx id p :
  (id, p) ∈ live idx → getPoint s idx id = deref (data_ s) p.
Proof.
  intros [_ Hlk]%live_from_lookup. rewrite Nat.sub_0_r in Hlk.
  unfold getPoint, index_getPoint. by rewrite Hlk.
Qed.

Lemma size_stored s vs : stored s = Some vs → size s = length vs.
Proof.
  unfold stored, size. destruct (index_ s); [|by intros [= <-]].
  by intros ?%length_mapM.
Qed.

Lemma stored_defined s : index_ok s → is_Some (stored s).
Proof.
  unfold index_ok, stored. intros Hok.
  destruct (index_ s) as [idx|]; [|done].
  apply mapM_is_Some_2, Forall_forall. intros [id p] Hin. simpl.
  apply live_from_lookup in Hin as [_ Hlk].
  eapply (proj1 (Forall_forall _ _) (Hok idx eq_refl) (p, false)),
    list_elem_of_lookup_2, Hlk.
Qed.

Lemma candidates_stored_aux s idx q (es : list (nat * ptr)) vs :
  (∀ e, e ∈ es → e ∈ live idx) →
  Forall2 (λ e x, deref (data_ s) e.2 = Some x) es vs →
  ∃ c, mapM (λ e, x ← deref (data_ s) e.2; Some (distFun_ s q x, e.1)) es
       = Some c
       ∧ Forall2 (hit s idx q) c vs.
Proof.
  intros Hsub Hvs. induction Hvs as [|[id p] x es vs Hx _ IH].
  - by exists [].
  - destruct IH as (c & Hc & HF).
    { intros e He. apply Hsub. by right. }
    simpl in Hx. exists ((distFun_ s q x, id) :: c). split.
    + simpl. rewrite Hx. simpl. by rewrite Hc.
    + constructor; [|done]. split; [|done]. simpl.
      rewrite <- Hx. apply getPoint_live, Hsub. by left.
Qed.

Lemma candidates_stored s idx q vs :
  index_ s = Some idx → stored s = Some vs →
  ∃ c, candidates (data_ s) (distFun_ s) idx q = Some c
       ∧ Forall2 (hit s idx q) c vs.
Proof.
  unfold stored, candidates. intros -> Hvs%mapM_Some_1.
  by apply candidates_stored_aux.
Qed.

Lemma hit_sorted s idx q c vs :
  Forall2 (hit s idx q) c vs → StronglySorted dist_le c →
  StronglySorted (nearer (distFun_ s) q) vs.
Proof.
  induction 1 as [|[d id] x c vs [_ Hd] HF IH]; [constructor|].
  intros [Hs Hall]%StronglySorted_inv. constructor; [by apply IH|].
  simpl in Hd. clear IH Hs. induction HF as [|[d' id'] y c vs [_ Hd'] _ IH];
    [constructor|].
  apply Forall_cons in Hall as [Hle Hall]. constructor; [|by apply IH].
  unfold nearer. unfold dist_le in Hle. simpl in *. subst.
  by apply Qle_bool_iff.
Qed.

(** [nearestK] returns the first [k] elements of the stored elements
    arranged by ascending distance. *)
Lemma nearestK_prefix x k s vs :
  stored s = Some vs →
  ∃ vs', vs' ≡ₚ vs ∧ StronglySorted (nearer (distFun_ s) x) vs'
         ∧ nearestK x k s = Some (take k vs').
Proof.
  intros Hvs. unfold nearestK.
  destruct (index_ s) as [idx|] eqn:Hidx.
  - destruct (candidates_stored s idx x vs Hidx Hvs) as (c & Hc & HF).
    destruct (Forall2_Permutation_l _ _ (merge_sort dist_le c) _
                (symmetry (merge_sort_Permutation dist_le c)) HF)
      as (vs' & Hp & HF').
    exists vs'. split; [done|]. split.
    + eapply hit_sorted; [done|]. apply StronglySorted_merge_sort; apply _.
    + unfold index_knnSearch. rewrite Hc. simpl.
      apply mapM_Some_2, Forall2_fmap_l, (Forall2_take _ _ _ k).
      eapply Forall2_impl; [done|]. by intros ? ? [? _].
  - unfold stored in Hvs. rewrite Hidx in Hvs. injection Hvs as <-.
    exists []. split; [done|]. split; [constructor|]. by destruct k.
Qed.

Lemma stored_set_checks s c : stored (set_checks c s) = stored s.
Proof. done. Qed.

(** [list] returns the stored elements, each once. *)
Lemma list_stored s vs :
  index_ok s → stored s = Some vs →
  ∃ l, list_ s = Some (l, s) ∧ l ≡ₚ vs.
Proof.
  intros Hok Hvs. unfold list_.
  pose proof (size_stored _ _ Hvs) as Hsz.
  case_decide as Hz.
  { exists []. split; [done|]. rewrite Hz in Hsz. by destruct vs. }
  destruct (index_ s) as [idx|] eqn:Hidx; [|by unfold size in Hz; rewrite Hidx in Hz].
  assert (is_Some (getPoint s idx 0)) as [dummy Hdummy].
  { unfold size in Hz. rewrite Hidx in Hz. unfold index_size, live in Hz.
    specialize (Hok idx Hidx). unfold getPoint, index_getPoint.
    destruct (points idx) as [|[p r] pts]; [done|].
    by apply Forall_cons in Hok as [Hp _]. }
  simpl. rewrite Hdummy. simpl.
  destruct (nearestK_prefix dummy (size s)
              (set_checks (to_int (Z.of_nat (size s))) s) vs)
    as (vs' & Hp & _ & Hk); [done|].
  rewrite Hk. simpl. rewrite set_checks_restore.
  exists (take (size s) vs'). split; [done|].
  rewrite take_ge; [done|]. rewrite Hsz, Hp. done.
Qed.

(** ** States in which buffer and index are in step *)

Lemma omap_id_Some l : omap id (Some <$> l) = l.
Proof. induction l as [|x l IH]; [done|]. csimpl. by rewrite IH. Qed.

Lemma elements_prefix v l :
  take (vsize v) (cells v) = Some <$> l → elements v = l.
Proof. unfold elements. intros ->. apply omap_id_Some. Qed.

Lemma length_elements v :
  vsize v ≤ capacity v →
  take (vsize v) (cells v) = Some <$> elements v →
  length (elements v) = vsize v.
Proof.
  intros Hle Heq. apply (f_equal length) in Heq.
  rewrite length_take_le, length_fmap in Heq by done. done.
Qed.

Lemma deref_in_range v i :
  take (vsize v) (cells v) = Some <$> elements v → i < vsize v →
  deref v (block v, i) = elements v !! i.
Proof.
  intros Heq Hi. unfold deref. simpl. rewrite decide_True by done.
  rewrite <- (lookup_take_lt _ (vsize v)) by done.
  rewrite Heq, list_lookup_fmap. by destruct (_ !! _).
Qed.

Lemma in_step_index_ok s : in_step s → index_ok s.
Proof.
  intros (Hle & Hw & Hidx) idx Hsome. rewrite Hsome in Hidx. rewrite Hidx.
  apply Forall_forall. intros e (i & -> & Hi)%list_elem_of_fmap.
  apply elem_of_seq in Hi. simpl.
  rewrite deref_in_range by (done || lia).
  apply lookup_lt_is_Some. rewrite length_elements by done. lia.
Qed.

Lemma in_step_stored s : in_step s → stored s = Some (elements (data_ s)).
Proof.
  intros (Hle & Hw & Hidx). unfold stored.
  destruct (index_ s) as [idx|].
  - unfold live. rewrite Hidx, live_from_matrix. simpl.
    apply mapM_Some_2, Forall2_fmap_l, Forall2_lookup. intros i.
    pose proof (length_elements _ Hle Hw) as Hlen.
    destruct (decide (i < vsize (data_ s))) as [Hi|Hi].
    + rewrite lookup_seq_lt by done.
      destruct (lookup_lt_is_Some_2 (elements (data_ s)) i) as [x Hx]; [lia|].
      rewrite Hx. constructor. simpl. by rewrite deref_in_range.
    + rewrite lookup_seq_ge by lia.
      rewrite (lookup_ge_None_2 (elements (data_ s))) by lia. constructor.
  - unfold elements. by rewrite Hidx.
Qed.

Lemma in_step_size s : in_step s → size s = vsize (data_ s).
Proof.
  intros (_ & _ & Hidx). unfold size. destruct (index_ s) as [idx|]; [|done].
  unfold index_size, live. by rewrite Hidx, length_live_matrix.
Qed.

(** The state a build from the elements [l] leaves behind. *)
Lemma capacity_assign l v :
  capacity (vec_assign l v) = capacity v `max` length l.
Proof.
  unfold vec_assign, capacity. case_match eqn:Hc; simpl.
  - apply Nat.ltb_lt in Hc. rewrite length_fmap. lia.
  - apply Nat.ltb_ge in Hc. rewrite length_app, length_fmap, length_drop. lia.
Qed.

Lemma take_assign l v :
  take (vsize (vec_assign l v)) (cells (vec_assign l v)) = Some <$> l.
Proof.
  unfold vec_assign. case_match; simpl.
  - apply take_ge. by rewrite length_fmap.
  - apply take_app_length'. by rewrite length_fmap.
Qed.

Lemma elements_assign l v : elements (vec_assign l v) = l.
Proof. apply elements_prefix, take_assign. Qed.

Lemma in_step_build l s :
  in_step (createIndex (block (vec_assign l (data_ s)), 0) (length l)
             (set_data (vec_assign l (data_ s)) s)).
Proof.
  split; [|split]; simpl.
  - rewrite capacity_assign, vsize_assign. lia.
  - by rewrite take_assign, elements_assign.
  - by rewrite vsize_assign.
Qed.

Lemma capacity_reserve_clear n v :
  capacity (vec_reserve n (vec_clear v)) = capacity v `max` n.
Proof.
  unfold vec_reserve, capacity. simpl. case_match eqn:Hc; simpl.
  - apply Nat.ltb_lt in Hc. rewrite length_replicate. lia.
  - apply Nat.ltb_ge in Hc. lia.
Qed.

(** What [rebuildIndex] does on a store with an index whose pointers
    can be read: it logs the call, and leaves buffer and index in step
    on the same elements, in a buffer of at least the capacity asked. *)
Lemma rebuildIndex_spec n s vs :
  index_ok s → is_Some (index_ s) → stored s = Some vs →
  ∃ s', rebuildIndex n s = Some s'
    ∧ in_step s'
    ∧ elements (data_ s') ≡ₚ vs
    ∧ rebuild_log_ s' = n :: rebuild_log_ s
    ∧ capacity (data_ s') = (capacity (data_ s) `max` n) `max` length vs
    ∧ (∃ idx', index_ s' = Some idx' ∧ built_with idx' = params_ s)
    ∧ distFun_ s' = distFun_ s ∧ params_ s' = params_ s
    ∧ searchParams_ s' = searchParams_ s ∧ dimension_ s' = dimension_ s.
Proof.
  intros Hok [idx Hidx] Hvs.
  destruct (list_stored (log_rebuild n s) vs) as (l & Hl & Hp); [done..|].
  unfold rebuildIndex, rebuildIndex_with. rewrite Hidx, Hl. simpl.
  rewrite add_vec_with_noindex by (by case_decide).
  eexists. split; [done|]. split; [apply in_step_build|].
  simpl. rewrite elements_assign, capacity_assign.
  split; [done|]. split; [by case_decide|]. split.
  { case_decide as Hn; simpl.
    - subst n. rewrite Hp. unfold capacity. simpl. lia.
    - by rewrite capacity_reserve_clear, Hp. }
  split; [eexists; split; [done|]; by case_decide|].
  by case_decide.
Qed.

(** ** Appending one element *)

Lemma matrix_S b o n :
  matrix (b, o) (S n) = matrix (b, o) n ++ matrix (b, o + n) 1.
Proof.
  unfold matrix. rewrite seq_S, fmap_app. simpl. by rewrite Nat.add_0_r.
Qed.

Lemma push_back_spec x v l :
  take (vsize v) (cells v) = Some <$> l →
  vsize v < capacity v ∨ vsize v = 0 →
  take (vsize (vec_push_back x v)) (cells (vec_push_back x v))
  = Some <$> (l ++ [x])
  ∧ vsize (vec_push_back x v) = S (vsize v)
  ∧ capacity (vec_push_back x v) = capacity v `max` 1
  ∧ (vsize v = 0 ∨ block (vec_push_back x v) = block v).
Proof.
  intros Hw Hroom. unfold vec_push_back, capacity in *.
  destruct (Nat.ltb_spec (vsize v) (length (cells v))) as [Hlt|Hge]; simpl.
  - split; [|split; [done|split; [|by right]]].
    + erewrite take_S_r by (by apply list_lookup_insert_eq).
      by rewrite take_insert_ge, Hw, fmap_app.
    + rewrite length_insert. lia.
  - assert (vsize v = 0) as Hz by lia. rewrite Hz in *.
    rewrite take_0 in *. destruct l; [|done]. simpl.
    split; [done|]. split; [done|]. split; [lia|by left].
Qed.

Lemma in_step_pushed x s :
  in_step s →
  vsize (data_ s) < capacity (data_ s) ∨ vsize (data_ s) = 0 →
  in_step (pushed x s)
  ∧ elements (data_ (pushed x s)) = elements (data_ s) ++ [x]
  ∧ capacity (data_ (pushed x s)) = capacity (data_ s) `max` 1
  ∧ rebuild_log_ (pushed x s) = rebuild_log_ s.
Proof.
  intros (Hle & Hw & Hidx) Hroom.
  destruct (push_back_spec x _ _ Hw Hroom) as (Ht & Hn & Hc & Hb).
  assert (data_ (pushed x s) = vec_push_back x (data_ s)) as Hd.
  { unfold pushed. simpl. by destruct (index_ s). }
  rewrite Hd. split; [|split; [by apply elements_prefix|split; [done|]]].
  - split; [rewrite Hd; lia|]. split.
    { rewrite Hd, Ht. f_equal. symmetry. by apply elements_prefix. }
    rewrite Hd. unfold pushed. simpl.
    destruct (index_ s) as [idx|]; simpl; rewrite Hn; simpl.
    + rewrite Hidx, Nat.sub_0_r, (matrix_S _ 0). simpl.
      destruct Hb as [Hz| ->]; [|done]. by rewrite Hz.
    + by rewrite Hidx.
  - unfold pushed. simpl. by destruct (index_ s).
Qed.

Lemma add_unfold x s :
  add x s
  = s1 ← (if bool_decide (is_Some (index_ s))
             && (capacity (data_ s) <? vsize (data_ s) + 1)
          then rebuildIndex (to_uint (2 * capacity (data_ s))) s
          else Some s);
    Some (pushed x s1).
Proof.
  unfold add, pushed. destruct (if _ && _ then _ else _) as [s1|]; [|done].
  simpl. by destruct (index_ s1).
Qed.

(** ** The single-element [add] on a store in step *)

Lemma add_spec x s :
  in_step s → fits_uint (2 * capacity (data_ s)) →
  ∃ s', add x s = Some s' ∧ in_step s'
    ∧ (rebuild_log_ s' ≠ rebuild_log_ s ↔
         is_Some (index_ s) ∧ capacity (data_ s) < vsize (data_ s) + 1)
    ∧ (is_Some (index_ s) → capacity (data_ s) < vsize (data_ s) + 1 →
         ∃ s1, rebuildIndex (2 * capacity (data_ s)) s = Some s1
           ∧ in_step s1 ∧ elements (data_ s1) ≡ₚ elements (data_ s)
           ∧ s' = pushed x s1
           ∧ elements (data_ s') = elements (data_ s1) ++ [x]
           ∧ rebuild_log_ s' = 2 * capacity (data_ s) :: rebuild_log_ s
           ∧ capacity (data_ s') = (2 * capacity (data_ s)) `max` 1)
    ∧ (is_Some (index_ s) → vsize (data_ s) + 1 ≤ capacity (data_ s) →
         s' = pushed x s
         ∧ block (data_ s') = block (data_ s)
         ∧ capacity (data_ s') = capacity (data_ s)
         ∧ elements (data_ s') = elements (data_ s) ++ [x]
         ∧ rebuild_log_ s' = rebuild_log_ s
         ∧ ∃ idx, index_ s = Some idx
             ∧ index_ s' = Some (index_addPoints
                                   (block (data_ s), vsize (data_ s)) 1 idx))
    ∧ (index_ s = None →
         s' = pushed x s
         ∧ capacity (data_ s') = capacity (data_ s) `max` 1
         ∧ elements (data_ s') = [x]).
Proof.
  intros Hstep Hfits. rewrite add_unfold, to_uint_small by done.
  pose proof Hstep as (Hle & Hw & Hidx).
  destruct (index_ s) as [idx|] eqn:Hi;
    [destruct (Nat.ltb_spec (capacity (data_ s)) (vsize (data_ s) + 1))
       as [Hfull|Hroom]|].
  - (* an index and a full buffer: rebuild *)
    rewrite bool_decide_eq_true_2 by done. cbn [andb].
    destruct (rebuildIndex_spec (2 * capacity (data_ s)) s (elements (data_ s)))
      as (s1 & Hs1 & Hstep1 & Hp & Hlog & Hcap & _);
      [by apply in_step_index_ok|by rewrite Hi|by apply in_step_stored|].
    rewrite Hs1. cbn [mbind option_bind].
    pose proof Hstep1 as (Hle1 & Hw1 & _).
    pose proof (length_elements _ Hle Hw) as Hlen.
    pose proof (length_elements _ Hle1 Hw1) as Hlen1.
    rewrite Hp, Hlen in Hlen1. rewrite Hlen in Hcap.
    destruct (in_step_pushed x s1 Hstep1) as (Hstep' & Hel & Hcap' & Hlog');
      [lia|].
    eexists. split; [done|]. split; [done|].
    rewrite Hlog', Hlog, Hcap', Hcap.
    split; [|split].
    + split; [done|]. intros _ Heq. apply (f_equal length) in Heq.
      simpl in Heq. lia.
    + intros _ _. exists s1. split_and!; try done. lia.
    + split; [intros _ ?; lia|done].
  - (* an index and room: in place *)
    rewrite bool_decide_eq_true_2 by done. cbn [andb].
    cbn [mbind option_bind].
    destruct (in_step_pushed x s Hstep) as (Hstep' & Hel & Hcap' & Hlog');
      [lia|].
    eexists. split; [done|]. split; [done|]. rewrite Hlog'.
    split; [|split].
    + split; [done|]. intros [_ ?]. lia.
    + intros _ ?. lia.
    + split; [intros _ _|done]. split; [done|].
      assert (vec_push_back x (data_ s)
              = mkVector (block (data_ s))
                  (<[vsize (data_ s) := Some x]> (cells (data_ s)))
                  (S (vsize (data_ s)))) as Hv.
      { unfold vec_push_back.
        destruct (Nat.ltb_spec (vsize (data_ s)) (capacity (data_ s)));
          [done|lia]. }
      assert (pushed x s
              = set_index
                  (Some (index_addPoints (block (data_ s), vsize (data_ s)) 1 idx))
                  (set_data (vec_push_back x (data_ s)) s)) as Hpushed.
      { unfold pushed. simpl. rewrite Hi, Hv. simpl. by rewrite Nat.sub_0_r. }
      split; [by rewrite Hpushed, Hv|]. split; [rewrite Hcap'; lia|].
      split; [done|]. split; [done|].
      exists idx. split; [done|]. by rewrite Hpushed.
  - (* no index: a fresh build, no rebuild *)
    rewrite bool_decide_eq_false_2 by (by intros [? ?]). cbn [andb mbind option_bind].
    destruct (in_step_pushed x s Hstep) as (Hstep' & Hel & Hcap' & Hlog');
      [by right|].
    eexists. split; [done|]. split; [done|]. rewrite Hlog'.
    split; [|split].
    + split; [done|]. by intros [[? ?] _].
    + by intros [? ?].
    + split; [by intros [? ?]|]. intros _. split; [done|]. split; [done|].
      rewrite Hel. unfold elements. by rewrite Hidx.
Qed.


(** ** What [rebuildIndex] and the bulk [add] log, in every state *)

Lemma rebuildIndex_log n s s' :
  rebuildIndex n s = Some s' →
  rebuild_log_ s'
  = match index_ s with
    | Some _ => n :: rebuild_log_ s
    | None => rebuild_log_ s
    end.
Proof.
  unfold rebuildIndex, rebuildIndex_with.
  destruct (index_ s) as [idx|]; [|by intros [= <-]].
  intros ([data s1] & Hl & Hadd)%bind_Some. apply list_unchanged in Hl as ->.
  simpl in Hadd. rewrite add_vec_with_noindex in Hadd by (by case_decide).
  injection Hadd as <-. by case_decide.
Qed.

(** The single-element [add] rebuilds exactly when an index exists and
    the length plus one exceeds the capacity, and then asks for twice
    the capacity. *)
Lemma add_log x s s' :
  add x s = Some s' →
  rebuild_log_ s'
  = if bool_decide (is_Some (index_ s))
       && (capacity (data_ s) <? vsize (data_ s) + 1)
    then to_uint (2 * capacity (data_ s)) :: rebuild_log_ s
    else rebuild_log_ s.
Proof.
  rewrite add_unfold. intros (s1 & Hs1 & [= <-])%bind_Some.
  assert (rebuild_log_ (pushed x s1) = rebuild_log_ s1) as ->.
  { unfold pushed. simpl. by destruct (index_ s1). }
  destruct (bool_decide (is_Some (index_ s))) eqn:Hb; simpl in *;
    [|by injection Hs1 as <-].
  apply bool_decide_eq_true_1 in Hb as [idx Hidx].
  destruct (_ <? _); [|by injection Hs1 as <-].
  apply rebuildIndex_log in Hs1. by rewrite Hidx in Hs1.
Qed.

(** The bulk [add] rebuilds exactly when an index exists and the new
    length exceeds the capacity, and then asks for the larger of twice
    the old length and the new length. *)
Lemma add_vec_log l s s' :
  add_vec l s = Some s' →
  rebuild_log_ s'
  = if bool_decide (is_Some (index_ s))
       && (capacity (data_ s)
           <? to_uint (to_uint (vsize (data_ s)) + length l))
    then to_uint (2 * to_uint (vsize (data_ s)))
           `max` to_uint (to_uint (vsize (data_ s)) + length l)
         :: rebuild_log_ s
    else rebuild_log_ s.
Proof.
  unfold add_vec, add_vec_with. intros (s1 & Hs1 & Hadd)%bind_Some.
  assert (rebuild_log_ s' = rebuild_log_ s1) as ->.
  { destruct (index_ s1); [|by injection Hadd as <-].
    by apply bind_Some in Hadd as (d & _ & [= <-]). }
  destruct (bool_decide (is_Some (index_ s))) eqn:Hb; simpl in *;
    [|by injection Hs1 as <-].
  apply bool_decide_eq_true_1 in Hb as [idx Hidx].
  destruct (_ <? _); [|by injection Hs1 as <-].
  apply rebuildIndex_log in Hs1. by rewrite Hidx in Hs1.
Qed.

(** ** The bulk [add] onto an existing index *)

Lemma vsize_copy l i v v' : vec_copy l i v = Some v' → vsize v' = vsize v.
Proof.
  revert i v. induction l as [|x l IH]; intros i v; simpl; [by intros [= <-]|].
  intros (v1 & Hw & Hc%IH)%bind_Some. rewrite Hc.
  unfold vec_write in Hw. by case_match; simplify_eq.
Qed.

(** A non-empty batch added to a store that has an index always leaves
    the buffer shorter than the index: the batch is copied past the end
    of the buffer, whose length is not updated. *)
Lemma add_vec_out_of_step l s s' :
  index_ok s → is_Some (index_ s) → l ≠ [] → add_vec l s = Some s' →
  in_step s → ¬ in_step s'.
Proof.
  intros Hok [idx Hidx] Hl Hadd Hstep Hstep'.
  pose proof (add_vec_size _ _ _ Hadd) as Hsz.
  rewrite (in_step_size _ Hstep'), (in_step_size _ Hstep) in Hsz.
  unfold add_vec, add_vec_with in Hadd.
  apply bind_Some in Hadd as (s1 & Hs1 & Hadd).
  assert (in_step s1 ∧ size s1 = size s ∧ is_Some (index_ s1))
    as (Hstep1 & Hsz1 & [idx1 Hidx1]).
  { destruct (_ && _) in Hs1; [|injection Hs1 as <-; by rewrite Hidx].
    destruct (stored_defined _ Hok) as [vs Hvs].
    destruct (rebuildIndex_spec
                (to_uint (2 * to_uint (vsize (data_ s)))
                   `max` to_uint (to_uint (vsize (data_ s)) + length l))
                s vs) as (s1' & Hs1' & ? & _ & _ & _ & (idx' & Hidx' & _) & _);
      [done|by rewrite Hidx|done|].
    rewrite Hs1' in Hs1. injection Hs1 as <-.
    split; [done|]. split; [by eapply rebuildIndex_size|by rewrite Hidx']. }
  rewrite Hidx1 in Hadd. apply bind_Some in Hadd as (d & Hd & [= <-]).
  simpl in Hsz. apply vsize_copy in Hd.
  rewrite Hd, <- (in_step_size _ Hstep1), Hsz1, (in_step_size _ Hstep) in Hsz.
  destruct l; [done|]. simpl in Hsz. lia.
Qed.

(** Without an index the bulk [add] assigns the batch to the buffer and
    builds the index over it. *)
Lemma add_vec_new l s :
  index_ s = None →
  ∃ s', add_vec l s = Some s' ∧ in_step s' ∧ elements (data_ s') = l
    ∧ rebuild_log_ s' = rebuild_log_ s.
Proof.
  intros Hidx. unfold add_vec. rewrite add_vec_with_noindex by done.
  eexists. split; [done|]. split; [apply in_step_build|].
  split; [apply elements_assign|done].
Qed.

(** ** Removal *)

Lemma index_ok_removePoint s idx id :
  index_ok s → index_ s = Some idx →
  index_ok (set_index (Some (index_removePoint id idx)) s).
Proof.
  intros Hok Hidx idx' [= <-]. simpl.
  apply Forall_alter; [by apply Hok|]. by intros [p r] _ Hp.
Qed.

(** With at least one element, [remove] succeeds exactly when the
    nearest neighbour the index reports equals the argument. *)
Lemma remove_spec x s :
  index_ok s → size s ≠ 0 →
  ∃ y b s', nearest x s = Ret y ∧ remove x s = Some (b, s')
    ∧ (b = true ↔ y = x)
    ∧ (if b then size s = S (size s') ∧ in_step s' else s' = s).
Proof.
  intros Hok Hsz. destruct (stored_defined _ Hok) as [vs Hvs].
  destruct (nearestK_prefix x 1 s vs Hvs) as (vs' & Hp & _ & Hk).
  pose proof (size_stored _ _ Hvs) as Hlen.
  pose proof (Permutation_length Hp) as Hlen'.
  destruct vs' as [|y vs']; [simpl in Hlen'; lia|]. simpl in Hk.
  rewrite take_0 in Hk. unfold nearestK in Hk.
  destruct (index_ s) as [idx|] eqn:Hidx; [|done].
  apply bind_Some in Hk as (ids & Hids & Hm).
  apply mapM_Some_1 in Hm.
  apply Forall2_cons_inv_r in Hm as (first & ids' & Hy & Hnil & ->).
  apply Forall2_nil_inv_r in Hnil as ->.
  assert (nearest x s = Ret y) as Hnearest.
  { unfold nearest. rewrite decide_False, Hidx by done. simpl.
    rewrite Hids. simpl. by rewrite Hy. }
  destruct (remove x s) as [[b s']|] eqn:Hrm.
  - exists y, b, s'. split; [done|]. split; [done|].
    pose proof (remove_size _ _ _ _ Hrm) as Hsize.
    unfold remove in Hrm. rewrite Hidx, Hids in Hrm. simpl in Hrm.
    rewrite Hy in Hrm. simpl in Hrm.
    case_decide as Hyx; [|by simplify_eq].
    apply bind_Some in Hrm as (s2 & Hs2 & [= <- <-]).
    split; [done|]. split; [done|].
    pose proof (index_ok_removePoint s idx first Hok Hidx) as Hok'.
    destruct (stored_defined _ Hok') as [vs2 Hvs2].
    destruct (rebuildIndex_spec 0 _ vs2 Hok' (mk_is_Some _ _ eq_refl) Hvs2)
      as (s2' & Hs2' & Hstep & _).
    by simplify_eq.
  - exfalso. unfold remove in Hrm. rewrite Hidx, Hids in Hrm. simpl in Hrm.
    rewrite Hy in Hrm. simpl in Hrm. case_decide; [|done].
    pose proof (index_ok_removePoint s idx first Hok Hidx) as Hok'.
    destruct (stored_defined _ Hok') as [vs2 Hvs2].
    destruct (rebuildIndex_spec 0 _ vs2 Hok' (mk_is_Some _ _ eq_refl) Hvs2)
      as (s2' & Hs2' & _).
    by rewrite Hs2' in Hrm.
Qed.

(** With an index that holds no element, [remove] reads the first id of
    an empty search result. *)
Lemma remove_empty_index x s :
  is_Some (index_ s) → size s = 0 → remove x s = None.
Proof.
  intros [idx Hidx] Hsz. unfold remove, size in *. rewrite Hidx in *.
  unfold index_knnSearch, candidates.
  unfold index_size in Hsz. by rewrite (nil_length_inv _ Hsz).
Qed.

Lemma in_step_clear s : in_step (clear s).
Proof. split; [simpl; lia|]. split; [|done]. simpl. by rewrite take_0. Qed.

Lemma in_step_new (params : IndexParams) (dist : T → T → Q) :
  in_step (new_store params dist).
Proof. by split_and!. Qed.

(** Every operation other than the bulk [add] onto an existing index
    keeps buffer and index in step. *)
Lemma in_step_preserved s :
  in_step s →
  in_step (clear s)
  ∧ (∀ sp, in_step (setSearchParams sp s))
  ∧ (∀ x s', fits_uint (2 * capacity (data_ s)) →
       add x s = Some s' → in_step s')
  ∧ (∀ l s', index_ s = None → add_vec l s = Some s' → in_step s')
  ∧ (∀ x b s', remove x s = Some (b, s') → in_step s')
  ∧ (∀ n s', rebuildIndex n s = Some s' → in_step s')
  ∧ (∀ fn s', setDistanceFunction fn s = Some s' → in_step s')
  ∧ (∀ p s', setIndexParams p s = Some s' → in_step s').
Proof.
  intros Hstep.
  assert (∀ n s0 s', in_step s0 → rebuildIndex n s0 = Some s' → in_step s')
    as Hrebuild.
  { intros n s0 s' Hstep0 Hs'.
    destruct (index_ s0) as [idx|] eqn:Hidx.
    - destruct (rebuildIndex_spec n s0 (elements (data_ s0)))
        as (s'' & Hs'' & ? & _);
        [by apply in_step_index_ok|by rewrite Hidx|by apply in_step_stored|].
      by simplify_eq.
    - unfold rebuildIndex, rebuildIndex_with in Hs'. rewrite Hidx in Hs'.
      by simplify_eq. }
  split_and!.
  - apply in_step_clear.
  - done.
  - intros x s' Hfits Hadd.
    destruct (add_spec x s Hstep Hfits) as (s'' & Hs'' & ? & _).
    by simplify_eq.
  - intros l s' Hidx Hadd.
    destruct (add_vec_new l s Hidx) as (s'' & Hs'' & ? & _). by simplify_eq.
  - intros x b s' Hrm.
    destruct (decide (size s = 0)) as [Hz|Hnz].
    + destruct (index_ s) as [idx|] eqn:Hidx.
      * by rewrite remove_empty_index in Hrm by (done || by rewrite Hidx).
      * unfold remove in Hrm. rewrite Hidx in Hrm. by simplify_eq.
    + destruct (remove_spec x s (in_step_index_ok _ Hstep) Hnz)
        as (y & b' & s'' & _ & Hrm' & _ & Hb).
      rewrite Hrm in Hrm'. injection Hrm' as <- <-.
      destruct b; [by destruct Hb|by subst].
  - intros n s'. by apply Hrebuild.
  - intros fn s'. by apply Hrebuild.
  - intros p s'. by apply Hrebuild.
Qed.

(** Sorted results for any state in which the stored elements can be read. *)
Lemma nearestK_sorted x k s vs :
  stored s = Some vs →
  ∃ nbh, nearestK x k s = Some nbh
    ∧ StronglySorted (nearer (distFun_ s) x) nbh ∧ nbh ⊆+ vs.
Proof.
  intros Hvs.
  destruct (nearestK_prefix x k s vs Hvs) as (vs' & Hp & Hsorted & Hk).
  exists (take k vs'). split; [done|]. split.
  - rewrite <- (take_drop k vs') in Hsorted.
    by apply StronglySorted_app_1_l in Hsorted.
  - rewrite <- Hp. apply submseteq_take.
Qed.

End Facts.

(** ** Sequences of calls *)

Section Runs.
Context {T : Type} `{EqDecision T}.
Implicit Types (s : NearestNeighborsFLANN T).

Lemma step_size c s a r s' a' r' :
  step c (s, a, r) = Some (s', a', r') →
  size s' + r' + a = size s + r + a'.
Proof.
  destruct c as [x|l|x]; simpl.
  - intros (s1 & Hs1%add_size & [= <- <- <-])%bind_Some. lia.
  - intros (s1 & Hs1%add_vec_size & [= <- <- <-])%bind_Some. lia.
  - intros ([b s1] & Hs1%remove_size & [= <- <- <-])%bind_Some.
    destruct b; [lia|subst; lia].
Qed.

Lemma run_size cs s a r s' a' r' :
  run cs (s, a, r) = Some (s', a', r') →
  size s' + r' + a = size s + r + a'.
Proof.
  revert s a r. induction cs as [|c cs IH]; intros s a r; simpl.
  - intros [= <- <- <-]. lia.
  - intros ([[s1 a1] r1] & Hstep%step_size & Hrun%IH)%bind_Some. lia.
Qed.

(** One [add] on a store in step keeps it in step and appends the
    element. *)
Lemma add_in_step x s :
  in_step s → fits_uint (2 * capacity (data_ s)) → roomy s →
  ∃ s', add x s = Some s' ∧ in_step s' ∧ roomy s'
    ∧ vsize (data_ s') = S (vsize (data_ s))
    ∧ elements (data_ s') ≡ₚ elements (data_ s) ++ [x].
Proof.
  intros Hstep Hfits Hroomy. unfold roomy in *.
  destruct (add_spec x s Hstep Hfits)
    as (s' & Hadd & Hstep' & _ & Hrebuild & Hplace & Hnone).
  exists s'. split; [done|]. split; [done|].
  pose proof Hstep as (Hle & Hw & Hidx).
  pose proof Hstep' as (Hle' & Hw' & _).
  pose proof (length_elements _ Hle Hw) as Hlen.
  pose proof (length_elements _ Hle' Hw') as Hlen'.
  destruct (index_ s) as [idx|] eqn:Hi;
    [destruct (decide (capacity (data_ s) < vsize (data_ s) + 1))
       as [Hfull|Hroom]|].
  - destruct Hrebuild as (s1 & _ & _ & Hp & _ & Hel & _ & Hcap); [done..|].
    rewrite Hel, Hp in Hlen'. rewrite length_app, Hlen in Hlen'. simpl in Hlen'.
    rewrite Hcap, Hel, Hp. split; [lia|]. split; [lia|done].
  - destruct Hplace as (_ & _ & Hcap & Hel & _); [done|lia|].
    rewrite Hel in Hlen'. rewrite length_app, Hlen in Hlen'. simpl in Hlen'.
    rewrite Hcap, Hel. split; [lia|]. split; [lia|done].
  - destruct Hnone as (_ & Hcap & Hel); [done|].
    rewrite Hel in Hlen'. simpl in Hlen'. rewrite Hidx in *.
    destruct (elements (data_ s)); [|done].
    rewrite Hcap, Hel. split; [lia|]. split; [lia|done].
Qed.

(** Adding elements one at a time never fails, and the buffer then
    holds exactly the elements added. *)
Lemma run_adds (xs : list T) s a r :
  in_step s → roomy s →
  fits_uint (4 * (vsize (data_ s) + length xs) + 2) →
  ∃ s', run (Add <$> xs) (s, a, r) = Some (s', a + length xs, r)
    ∧ in_step s' ∧ elements (data_ s') ≡ₚ elements (data_ s) ++ xs.
Proof.
  revert s a. induction xs as [|x xs IH]; intros s a Hstep Hroomy Hfits.
  - exists s. simpl. rewrite Nat.add_0_r, app_nil_r. done.
  - destruct (add_in_step x s) as (s1 & Hadd & Hstep1 & Hroomy1 & Hn & Hel);
      [done| |done|].
    { eapply fits_uint_le; [|done]. unfold roomy in Hroomy. lia. }
    destruct (IH s1 (S a) Hstep1 Hroomy1) as (s' & Hrun & Hstep' & Hel').
    { eapply fits_uint_le; [|done]. rewrite Hn. simpl. lia. }
    exists s'. split; [|split; [done|]].
    + change (run (Add <$> x :: xs) (s, a, r))
        with (st' ← step (Add x) (s, a, r); run (Add <$> xs) st').
      cbn [step]. rewrite Hadd. cbn [mbind option_bind]. rewrite Hrun.
      do 3 f_equal. simpl. lia.
    + rewrite Hel', Hel, <- app_assoc. done.
Qed.

End Runs.

(** * The claims *)

Section Claims.
Context {T : Type} `{EqDecision T}.
Implicit Types (s : NearestNeighborsFLANN T) (x : T) (l : list T).

(** C3. [nearest] throws exactly when [size()] is 0; on such a store
    [nearestK], [nearestR] and [list] return the empty sequence and do
    not throw. *)
Theorem empty_store_asymmetry s x k (r : Q) :
  ((∃ e, nearest x s = Throw e) ↔ size s = 0)
  ∧ (size s = 0 →
       nearest x s
       = Throw (Exception "No elements found in nearest neighbors data structure")
       ∧ nearestK x k s = Some []
       ∧ nearestR x r s = Ret []
       ∧ list_ s = Some ([], s)).
Proof.
  assert (size s = 0 →
          nearest x s
          = Throw (Exception "No elements found in nearest neighbors data structure"))
    as Hthrow.
  { intros Hz. unfold nearest. by rewrite decide_True. }
  split.
  - split; [|intros Hz; eexists; by apply Hthrow].
    intros [e He]. unfold nearest in He. case_decide; [done|].
    by destruct (_ ≫= _) in He.
  - intros Hz. split; [by apply Hthrow|].
    assert (∀ idx, index_ s = Some idx → live idx = []) as Hlive.
    { intros idx Hidx. unfold size in Hz. rewrite Hidx in Hz.
      by apply nil_length_inv. }
    split; [|split].
    + unfold nearestK. destruct (index_ s) as [idx|] eqn:Hidx; [|done].
      unfold index_knnSearch, candidates. rewrite (Hlive idx eq_refl). simpl.
      by rewrite merge_sort_dist_nil, take_nil.
    + unfold nearestR. destruct (index_ s) as [idx|] eqn:Hidx; [|done].
      unfold index_radiusSearch, candidates. rewrite (Hlive idx eq_refl).
      done.
    + unfold list_. by rewrite decide_True.
Qed.

(** C7. [size()] is the count the index reports and 0 without an
    index; after any sequence of [add], bulk [add] and [remove] calls
    on a new store, [size()] is the number of elements added minus the
    number of [remove] calls that returned true. *)
Theorem size_is_added_minus_removed (params : IndexParams)
    (dist : T → T → Q) (cs : list (call T)) s added removed :
  run cs (new_store params dist, 0, 0) = Some (s, added, removed) →
  size s = from_option index_size 0 (index_ s)
  ∧ (index_ s = None → size s = 0)
  ∧ size s + removed = added.
Proof.
  intros Hrun%run_size. split; [by unfold size; destruct (index_ s)|].
  split; [by unfold size; intros ->|].
  change (size (new_store params dist)) with 0 in Hrun. lia.
Qed.

(** C10. [clear] drops the index and sets the length of the buffer to
    zero, so [size()] is 0 and [list] is empty; the capacity of the
    buffer, the index parameters, the search parameters and the
    distance function are left as they were. *)
Theorem clear_frame s :
  index_ (clear s) = None
  ∧ vsize (data_ (clear s)) = 0
  ∧ elements (data_ (clear s)) = []
  ∧ size (clear s) = 0
  ∧ list_ (clear s) = Some ([], clear s)
  ∧ capacity (data_ (clear s)) = capacity (data_ s)
  ∧ block (data_ (clear s)) = block (data_ s)
  ∧ params_ (clear s) = params_ s
  ∧ searchParams_ (clear s) = searchParams_ s
  ∧ distFun_ (clear s) = distFun_ s
  ∧ dimension_ (clear s) = dimension_ s.
Proof. by split_and!. Qed.

End Claims.

(** * Runs on integers *)

(** C1 (the code departs from it).  A bulk [add] of [[1; 2]] on a new
    store leaves buffer and index in step.  The next bulk [add], of
    [[3]], rebuilds for a capacity of 4 and copies 3 behind the end of
    the buffer: the index then holds 1, 2, 3 while the buffer's logical
    range is still [[1; 2]].  A following [add 4] is pushed into the
    cell that held 3: the index holds 1, 2, 4, 4, the buffer 1, 2, 4. *)
Theorem bulk_add_leaves_index_ahead_of_buffer :
  (∃ s, add_vec [1; 2]%Z fresh = Some s ∧ in_step s)
  ∧ (∃ s, bulk_bulk = Some s ∧ ¬ in_step s
        ∧ rebuild_log_ s = [4] ∧ capacity (data_ s) = 4
        ∧ size s = 3 ∧ stored s = Some [1; 2; 3]%Z
        ∧ vsize (data_ s) = 2 ∧ elements (data_ s) = [1; 2]%Z)
  ∧ (∃ s, bulk_bulk_single = Some s ∧ ¬ in_step s
        ∧ size s = 4 ∧ stored s = Some [1; 2; 4; 4]%Z
        ∧ vsize (data_ s) = 3 ∧ elements (data_ s) = [1; 2; 4]%Z).
Proof.
  split; [|split].
  - eexists. split; [reflexivity|]. by split_and!.
  - exists (default fresh bulk_bulk). split; [by vm_compute|].
    split; [|by vm_compute].
    intros Hs%in_step_size. by vm_compute in Hs.
  - exists (default fresh bulk_bulk_single). split; [by vm_compute|].
    split; [|by vm_compute].
    intros Hs%in_step_size. by vm_compute in Hs.
Qed.

(** C2 (the code departs from it).  Removing the only element returns
    true and leaves an index without points.  A second [remove] passes
    the test for a missing index, the search returns no id, and reading
    [indices[0][0]] is undefined: no [false] is returned.  [nearest] on
    the same store throws, as it tests [size()]. *)
Theorem remove_on_emptied_store_undefined :
  ∃ s, (s0 ← add 5%Z fresh; remove 5%Z s0) = Some (true, s)
    ∧ size s = 0 ∧ is_Some (index_ s)
    ∧ remove 5%Z s = None
    ∧ nearest 5%Z s
      = Throw (Exception "No elements found in nearest neighbors data structure").
Proof.
  exists (default fresh (snd <$> (s0 ← add 5%Z fresh; remove 5%Z s0))).
  split; [by vm_compute|]. split; [by vm_compute|].
  split; [by eexists|]. split; by vm_compute.
Qed.

(** C5 (the code departs from it).  After the bulk adds of [[1; 9]] and
    [[3]] the buffer has logical length 2 and capacity 4 and the store
    holds 1, 9, 3.  The bulk [add] of [[5; 6; 7]] rebuilds, asking for
    [max (2 * 2) (2 + 3) = 5], and then copies the batch to offset 2 of
    the rebuilt buffer [[1; 3; 9]]: 9 is overwritten and 5 is indexed
    twice. *)
Theorem bulk_add_overwrites_stored_element :
  (∃ s, bulk_19_3 = Some s
        ∧ vsize (data_ s) = 2 ∧ capacity (data_ s) = 4
        ∧ elements (data_ s) = [1; 9]%Z ∧ stored s = Some [1; 9; 3]%Z)
  ∧ (∃ s, (s0 ← bulk_19_3; add_vec [5; 6; 7]%Z s0) = Some s
        ∧ rebuild_log_ s = [5; 4]
        ∧ size s = 6 ∧ stored s = Some [1; 3; 5; 5; 6; 7]%Z
        ∧ vsize (data_ s) = 3 ∧ elements (data_ s) = [1; 3; 5]%Z).
Proof.
  split.
  - exists (default fresh bulk_19_3). by vm_compute.
  - exists (default fresh (s0 ← bulk_19_3; add_vec [5; 6; 7]%Z s0)).
    by vm_compute.
Qed.

(** C8 (the code departs from it).  After adding [[1; 2]], [[3]] and 4,
    [list] returns 1, 2, 4, 4: 3 is missing and 4 appears twice.  After
    [remove 4] has returned true, [list] still returns 4. *)
Theorem list_omits_and_repeats :
  (s ← bulk_bulk_single; fst <$> list_ s) = Some [1; 2; 4; 4]%Z
  ∧ (s ← bulk_bulk_single; fst <$> remove 4%Z s) = Some true
  ∧ (s ← bulk_bulk_single; r ← remove 4%Z s; fst <$> list_ r.2)
    = Some [1; 2; 4]%Z.
Proof. by vm_compute. Qed.

(** C4 (the code departs from it).  After the bulk adds of [[1]],
    [[2]] and [[3]] and [add 4] the buffer is full, with logical length 2
    and capacity 2, while the index holds four points, all readable.
    [add 5] rebuilds, asking for twice the capacity, 4.  The rebuilt
    buffer takes the four elements the index held and is full again, so
    the [push_back] that follows reallocates: the capacity becomes 8,
    not 4, and the four points of the index built a moment before keep
    referring to the allocation that was released (block 3, the buffer
    is block 4).  On the store the call leaves, [list], [nearestK] and
    [nearest] are undefined. *)
Theorem add_after_bulk_adds_leaves_index_dangling :
  ∃ s s', bulks_single = Some s ∧ add 5%Z s = Some s'
    ∧ is_Some (index_ s)
    ∧ vsize (data_ s) = 2 ∧ capacity (data_ s) = 2
    ∧ size s = 4 ∧ stored s = Some [1; 4; 4; 4]%Z
    ∧ rebuild_log_ s' = 4 :: rebuild_log_ s
    ∧ capacity (data_ s') = 8 ∧ vsize (data_ s') = 5
    ∧ elements (data_ s') = [1; 4; 4; 4; 5]%Z
    ∧ block (data_ s') = 4
    ∧ (points <$> index_ s')
      = Some [((3, 0), false); ((3, 1), false); ((3, 2), false);
              ((3, 3), false); ((4, 4), false)]
    ∧ size s' = 5 ∧ stored s' = None
    ∧ list_ s' = None ∧ nearestK 5%Z 1 s' = None
    ∧ nearest 5%Z s' = Undefined.
Proof.
  exists (default fresh bulks_single), (default fresh bulks_single_single).
  split; [by vm_compute|]. split; [by vm_compute|].
  split; [vm_compute; by eexists|]. by vm_compute.
Qed.

(** C6 (the code departs from it).  After adding [[1; 2]], [[3]] and 4,
    [size()] is 4 and [nearestK 0 10], with [k] above [size()], returns
    1, 2, 4, 4: the element 3, added and never removed, is missing, and
    4 is there twice; [nearestK 3 1] returns 2.  After adding [[1]],
    [[2]], [[3]], 4 and 5 the answer of [nearestK] is undefined. *)
Theorem nearestK_omits_added_element :
  (∃ s, bulk_bulk_single = Some s ∧ size s = 4
      ∧ nearestK 0%Z 10 s = Some [1; 2; 4; 4]%Z
      ∧ nearestK 3%Z 1 s = Some [2]%Z)
  ∧ (∃ s, bulks_single_single = Some s ∧ size s = 5
        ∧ nearestK 0%Z 10 s = None).
Proof.
  split.
  - exists (default fresh bulk_bulk_single). by vm_compute.
  - exists (default fresh bulks_single_single). by vm_compute.
Qed.

(** C9 (the code departs from it).  After adding [[1]], [[2]], [[3]], 4
    and 5 the store is not empty ([size()] is 5) and has an index whose
    first four points refer to a released allocation.  Both setters run
    [rebuildIndex], whose [list] reads through these points: the calls
    are undefined and no index is rebuilt. *)
Theorem setters_undefined_on_dangling_index :
  ∃ s, bulks_single_single = Some s
    ∧ size s = 5 ∧ is_Some (index_ s)
    ∧ list_ (set_distFun (λ a b, absdist b a) s) = None
    ∧ setDistanceFunction (λ a b, absdist b a) s = None
    ∧ list_ (set_params KDTreeIndexParams s) = None
    ∧ setIndexParams KDTreeIndexParams s = None.
Proof.
  exists (default fresh bulks_single_single).
  split; [by vm_compute|]. split; [by vm_compute|].
  split; [vm_compute; by eexists|]. by vm_compute.
Qed.

(** ** Instances of the general theorems *)

(** [in_step] of a closed store, by evaluation. *)
Ltac in_step_by_evaluation :=
  split_and!; [vm_compute; lia|reflexivity|reflexivity].

Lemma store_1_5_reachable :
  (s ← add 1%Z fresh; add 5%Z s) = Some store_1_5.
Proof. reflexivity. Qed.

Lemma store_1_5_in_step : in_step store_1_5.
Proof. in_step_by_evaluation. Qed.

Lemma empty_store_asymmetry_witness :
  size fresh = 0
  ∧ nearest 4%Z fresh
    = Throw (Exception "No elements found in nearest neighbors data structure")
  ∧ nearestK 4%Z 5 fresh = Some []
  ∧ list_ fresh = Some ([], fresh).
Proof.
  destruct (empty_store_asymmetry fresh 4%Z 5 1%Q) as [_ Hempty].
  destruct Hempty as (Hn & Hk & _ & Hl); [reflexivity|].
  split; [reflexivity|]. by split_and!.
Defined.

Lemma size_is_added_minus_removed_witness :
  ∃ s, run [Add 1%Z; Add 5%Z; Remove 5%Z; Remove 7%Z; AddVec [3; 4]%Z]
         (fresh, 0, 0) = Some (s, 4, 1)
    ∧ size s + 1 = 4.
Proof.
  eexists. split; [vm_compute; reflexivity|].
  eapply (size_is_added_minus_removed LinearIndexParams absdist
            [Add 1%Z; Add 5%Z; Remove 5%Z; Remove 7%Z; AddVec [3; 4]%Z]).
  vm_compute. reflexivity.
Defined.

(** * Further properties of the code *)

Section More.
Context {T : Type} `{EqDecision T}.
Implicit Types (s : NearestNeighborsFLANN T) (v : vector T) (idx : Index).
Implicit Types (l : list T) (x : T) (m : mutation T).

(** ** [rebuildIndex] whenever it returns *)

Lemma rebuildIndex_None n s : index_ s = None → rebuildIndex n s = Some s.
Proof. intros Hidx. unfold rebuildIndex, rebuildIndex_with. by rewrite Hidx. Qed.

Lemma rebuildIndex_Some n s s' :
  rebuildIndex n s = Some s' → is_Some (index_ s) →
  in_step s' ∧ size s' = size s
  ∧ capacity (data_ s) ≤ capacity (data_ s') ∧ n ≤ capacity (data_ s')
  ∧ (∃ idx', index_ s' = Some idx' ∧ built_with idx' = params_ s)
  ∧ distFun_ s' = distFun_ s ∧ params_ s' = params_ s
  ∧ searchParams_ s' = searchParams_ s ∧ dimension_ s' = dimension_ s.
Proof.
  intros Hs' [idx Hidx]. pose proof (rebuildIndex_size _ _ _ Hs') as Hsz.
  unfold rebuildIndex, rebuildIndex_with in Hs'. rewrite Hidx in Hs'.
  apply bind_Some in Hs' as ([data s1] & Hl & Hadd).
  apply list_unchanged in Hl as ->. simpl in Hadd.
  rewrite add_vec_with_noindex in Hadd by (by case_decide).
  injection Hadd as <-. split; [apply in_step_build|]. split; [done|].
  simpl. rewrite capacity_assign.
  split; [|split; [|split; [eexists; split; [done|]|]]]; case_decide; simpl;
    rewrite ?capacity_reserve_clear; try done; unfold capacity; simpl; lia.
Qed.

(** ** The buffer under [push_back] and [std::copy] *)

Lemma vsize_push_back x v : vsize (vec_push_back x v) = S (vsize v).
Proof. unfold vec_push_back. by case_match. Qed.

Lemma capacity_push_back_le x v : capacity v ≤ capacity (vec_push_back x v).
Proof.
  unfold vec_push_back, capacity.
  destruct (Nat.ltb_spec (vsize v) (length (cells v))); simpl.
  - by rewrite length_insert.
  - rewrite length_app, length_take. simpl. lia.
Qed.

Lemma capacity_push_back_fits x v :
  vsize v ≤ capacity v → S (vsize v) ≤ capacity (vec_push_back x v).
Proof.
  unfold vec_push_back, capacity. intros Hle.
  destruct (Nat.ltb_spec (vsize v) (length (cells v))); simpl.
  - rewrite length_insert. lia.
  - rewrite length_app, length_take. simpl. lia.
Qed.

Lemma vec_copy_frame l i v v' :
  vec_copy l i v = Some v' →
  capacity v' = capacity v ∧ block v' = block v ∧ vsize v' = vsize v.
Proof.
  revert i v. induction l as [|x l IH]; intros i v; simpl; [by intros [= <-]|].
  intros (v1 & Hw & (Hc & Hb & Hn)%IH)%bind_Some. rewrite Hc, Hb, Hn.
  unfold vec_write in Hw. case_match; simplify_eq. unfold capacity. simpl.
  by rewrite length_insert.
Qed.

(** ** One call *)

Lemma pushed_fields x s :
  data_ (pushed x s) = vec_push_back x (data_ s)
  ∧ size (pushed x s) = S (size s)
  ∧ is_Some (index_ (pushed x s))
  ∧ (∀ idx, index_ (pushed x s) = Some idx →
       built_with idx = match index_ s with
                        | Some idx0 => built_with idx0
                        | None => params_ s
                        end)
  ∧ distFun_ (pushed x s) = distFun_ s ∧ params_ (pushed x s) = params_ s
  ∧ searchParams_ (pushed x s) = searchParams_ s
  ∧ dimension_ (pushed x s) = dimension_ s.
Proof.
  unfold pushed, size. simpl. destruct (index_ s) as [idx0|]; simpl.
  - rewrite index_size_addPoints. split_and!; try done; [lia|].
    by intros idx [= <-].
  - rewrite index_size_build. split_and!; try done. by intros idx [= <-].
Qed.

Lemma in_step_sound s :
  in_step s → (∀ idx, index_ s = Some idx → built_with idx = params_ s) →
  sound s.
Proof.
  intros Hstep Hbuilt. pose proof (in_step_size _ Hstep) as Hsz.
  destruct Hstep as (Hle & _ & Hidx). split_and!; [done|lia| |done].
  intros Hnone. by rewrite Hnone in Hidx.
Qed.

Lemma rebuildIndex_step n s s' :
  rebuildIndex n s = Some s' →
  capacity (data_ s) ≤ capacity (data_ s') ∧ same_config s s'
  ∧ size s' = size s
  ∧ (is_Some (index_ s) ∨ sound s → sound s').
Proof.
  intros Hs'. destruct (index_ s) as [idx|] eqn:Hidx.
  - destruct (rebuildIndex_Some n s s' Hs') as
      (Hstep & Hsz & Hcap & _ & (idx' & Hidx' & Hbuilt) & Hd & Hp & Hsp & Hdim);
      [by rewrite Hidx|].
    split; [done|]. split; [done|]. split; [done|]. intros _.
    apply in_step_sound; [done|]. intros idx0 Hidx0.
    rewrite Hidx' in Hidx0. injection Hidx0 as <-. by rewrite Hp.
  - rewrite rebuildIndex_None in Hs' by done. injection Hs' as <-.
    split; [done|]. split; [done|]. split; [done|]. by intros [[? ?]|?].
Qed.

Lemma pushed_step x s :
  capacity (data_ s) ≤ capacity (data_ (pushed x s))
  ∧ same_config s (pushed x s)
  ∧ size (pushed x s) = S (size s)
  ∧ (sound s → sound (pushed x s)).
Proof.
  destruct (pushed_fields x s)
    as (Hd & Hsz & [idx' Hidx'] & Hbuilt & Hf & Hp & Hsp & Hdim).
  rewrite Hd. split; [apply capacity_push_back_le|]. split; [done|].
  split; [done|]. intros (Hle & Hle' & Hnone & Hb).
  split_and!.
  - rewrite Hd, vsize_push_back. by apply capacity_push_back_fits.
  - rewrite Hd, vsize_push_back, Hsz. lia.
  - by rewrite Hidx'.
  - intros idx Hidx. rewrite (Hbuilt idx Hidx), Hp.
    destruct (index_ s) as [idx0|] eqn:Hidx0; [by apply Hb|done].
Qed.

Lemma add_step x s s' :
  add x s = Some s' →
  capacity (data_ s) ≤ capacity (data_ s') ∧ same_config s s'
  ∧ (sound s → sound s').
Proof.
  rewrite add_unfold. intros (s1 & Hs1 & [= <-])%bind_Some.
  assert (capacity (data_ s) ≤ capacity (data_ s1) ∧ same_config s s1
          ∧ (sound s → sound s1)) as (Hcap & (Hf & Hp & Hsp & Hdim) & Hsound).
  { destruct (_ && _) in Hs1; [|by injection Hs1 as <-].
    destruct (rebuildIndex_step _ _ _ Hs1) as (? & ? & _ & Hsound).
    split; [done|]. split; [done|]. intros ?. apply Hsound. by right. }
  destruct (pushed_step x s1) as (Hcap' & (Hf' & Hp' & Hsp' & Hdim') & _ & Hsound').
  split; [lia|]. split; [|by intros ?; apply Hsound', Hsound].
  unfold same_config. by rewrite Hf', Hp', Hsp', Hdim'.
Qed.

Lemma add_vec_step l s s' :
  add_vec l s = Some s' →
  capacity (data_ s) ≤ capacity (data_ s') ∧ same_config s s'
  ∧ (sound s → sound s').
Proof.
  intros Hadd. unfold add_vec, add_vec_with in Hadd.
  apply bind_Some in Hadd as (s1 & Hs1 & Hadd).
  assert (capacity (data_ s) ≤ capacity (data_ s1) ∧ same_config s s1
          ∧ (sound s → sound s1)) as (Hcap & (Hf & Hp & Hsp & Hdim) & Hsound).
  { destruct (_ && _) in Hs1; [|by injection Hs1 as <-].
    destruct (rebuildIndex_step _ _ _ Hs1) as (? & ? & _ & Hsound).
    split; [done|]. split; [done|]. intros ?. apply Hsound. by right. }
  destruct (index_ s1) as [idx1|] eqn:Hidx1.
  - apply bind_Some in Hadd as (d & Hd & [= <-]).
    apply vec_copy_frame in Hd as (Hc & _ & Hn). simpl.
    split; [lia|]. split; [done|].
    intros (Hle & Hle' & _ & Hb)%Hsound. unfold size in Hle'.
    rewrite Hidx1 in Hle'.
    split_and!; simpl; [lia| |done|].
    + unfold size. simpl. rewrite index_size_addPoints, Hn. lia.
    + intros idx [= <-]. simpl. by apply Hb.
  - injection Hadd as <-. simpl. rewrite capacity_assign, vsize_assign.
    split; [lia|]. split; [done|]. intros _.
    apply (in_step_sound _ (in_step_build l s1)). by intros idx [= <-].
Qed.

Lemma remove_step x s b s' :
  remove x s = Some (b, s') →
  capacity (data_ s) ≤ capacity (data_ s') ∧ same_config s s'
  ∧ (sound s → sound s').
Proof.
  intros Hrm. pose proof (remove_size _ _ _ _ Hrm) as Hsz.
  destruct b; [|by subst].
  unfold remove in Hrm. destruct (index_ s) as [idx|] eqn:Hidx; [|done].
  apply bind_Some in Hrm as (ids & _ & Hrm).
  apply bind_Some in Hrm as (first & _ & Hrm).
  apply bind_Some in Hrm as (elt & _ & Hrm).
  case_decide; [|done]. apply bind_Some in Hrm as (s2 & Hs2 & [= <-]).
  destruct (rebuildIndex_step _ _ _ Hs2) as (Hcap & Hcfg & _ & Hsound).
  split; [done|]. split; [done|]. intros _. apply Hsound. by left.
Qed.

(** Every call leaves the capacity at least as large, changes no
    setting but the one it sets, and keeps a sound store sound. *)
Lemma mutate_step m s s' :
  mutate m s = Some s' →
  capacity (data_ s) ≤ capacity (data_ s')
  ∧ distFun_ s' = match m with
                  | MSetDistanceFunction distFun => distFun
                  | _ => distFun_ s
                  end
  ∧ params_ s' = match m with
                 | MSetIndexParams params => params
                 | _ => params_ s
                 end
  ∧ searchParams_ s' = match m with
                       | MSetSearchParams searchParams => searchParams
                       | _ => searchParams_ s
                       end
  ∧ dimension_ s' = dimension_ s
  ∧ (sound s → sound s').
Proof.
  destruct m as [|fn|x|l|x|p|sp]; simpl.
  - intros [= <-]. split_and!; try done.
    intros _. apply in_step_sound; [apply in_step_clear|done].
  - intros (Hcap & (Hf & Hp & Hsp & Hdim) & _ & Hsound)%rebuildIndex_step.
    split_and!; try done. intros (Hle & Hle' & Hnone & Hb).
    destruct (decide (is_Some (index_ s))) as [Hsome|Hno];
      apply Hsound; [by left|right].
    split; [exact Hle|]. split; [exact Hle'|]. split; [exact Hnone|].
    intros idx' Hidx'. exfalso. apply Hno. by exists idx'.
  - intros (Hcap & (Hf & Hp & Hsp & Hdim) & Hsound)%add_step. by split_and!.
  - intros (Hcap & (Hf & Hp & Hsp & Hdim) & Hsound)%add_vec_step.
    by split_and!.
  - intros ([b s2] & Hrm & [= <-])%fmap_Some.
    apply remove_step in Hrm as (Hcap & (Hf & Hp & Hsp & Hdim) & Hsound).
    by split_and!.
  - intros (Hcap & (Hf & Hp & Hsp & Hdim) & _ & Hsound)%rebuildIndex_step.
    split_and!; try done. intros (Hle & Hle' & Hnone & Hb).
    destruct (decide (is_Some (index_ s))) as [Hsome|Hno];
      apply Hsound; [by left|right].
    split; [exact Hle|]. split; [exact Hle'|]. split; [exact Hnone|].
    intros idx' Hidx'. exfalso. apply Hno. by exists idx'.
  - intros [= <-]. by split_and!.
Qed.

(** ** [nearest] and [nearestR] *)

(** In every state [nearest] returns what [nearestK] returns for
    [k = 1]. *)
Lemma nearest_nearestK x s y :
  nearest x s = Ret y ↔ nearestK x 1 s = Some [y] .
Proof.
  unfold nearest, nearestK, size. destruct (index_ s) as [idx|]; simpl.
  - destruct (index_knnSearch _ _ _ _ _) as [ids|] eqn:Hids; simpl.
    + pose proof (index_knnSearch_length _ _ _ _ _ _ Hids) as Hlen.
      case_decide as Hz.
      { rewrite Hz in Hlen. destruct ids; [|done]. by split. }
      assert (length ids = 1) as Hone by lia.
      destruct ids as [|first [|? ?]]; [done| |done]. simpl.
      destruct (getPoint s idx first) as [z|]; simpl; [|by split].
      split; by intros [= ->].
    + case_decide; by split.
  - by split.
Qed.

Lemma StronglySorted_filter {A} (R : relation A) (P : A → Prop)
    `{∀ a, Decision (P a)} (l : list A) :
  StronglySorted R l → StronglySorted R (filter P l).
Proof.
  induction 1 as [|a l _ IH Hall]; [constructor|].
  rewrite filter_cons. case_decide; [|done]. constructor; [done|].
  apply Forall_forall. intros b [_ Hb]%list_elem_of_filter.
  by eapply Forall_forall in Hall.
Qed.

Lemma to_int_small (z : Z) : (0 ≤ z < 2 ^ 31)%Z → to_int z = z.
Proof. intros Hz. unfold to_int. rewrite Z.mod_small; lia. Qed.

(** [nearestR] returns the stored elements within the radius, nearest
    first, when their number fits the [int] that counts them. *)
Lemma nearestR_spec x (r : Q) s vs :
  stored s = Some vs → (Z.of_nat (size s) < 2 ^ 31)%Z →
  ∃ vs', vs' ≡ₚ vs ∧ StronglySorted (nearer (distFun_ s) x) vs'
    ∧ nearestR x r s = Ret (within (distFun_ s) x r vs').
Proof.
  intros Hvs Hfit. unfold nearestR.
  destruct (index_ s) as [idx|] eqn:Hidx.
  - destruct (candidates_stored s idx x vs Hidx Hvs) as (c & Hc & HF).
    destruct (Forall2_Permutation_l _ _ (merge_sort dist_le c) _
                (symmetry (merge_sort_Permutation dist_le c)) HF)
      as (vs' & Hp & HF').
    exists vs'. split; [done|]. split.
    { eapply hit_sorted; [done|]. apply StronglySorted_merge_sort; apply _. }
    unfold index_radiusSearch. rewrite Hc. simpl.
    set (ids := (filter _ (merge_sort dist_le c)).*2).
    assert (length ids ≤ size s) as Hlen.
    { unfold ids. rewrite length_fmap.
      etrans; [apply length_filter|].
      rewrite merge_sort_Permutation, (candidates_length _ _ _ _ _ Hc).
      unfold size. by rewrite Hidx. }
    rewrite to_int_small by lia.
    destruct (Z.ltb_spec (Z.of_nat (length ids)) 0); [lia|].
    rewrite Nat2Z.id, take_ge by done.
    assert (mapM (getPoint s idx) ids = Some (within (distFun_ s) x r vs'))
      as ->; [|done].
    apply mapM_Some_2, Forall2_fmap_l. unfold within.
    apply (Forall2_impl (hit s idx x)); [|by intros ? ? [? _]].
    apply Forall2_filter; [|done].
    intros [d id] z [_ Hd]. simpl in *. by subst.
  - unfold stored in Hvs. rewrite Hidx in Hvs. injection Hvs as <-.
    exists []. split; [done|]. split; [constructor|done].
Qed.

(** ** What a successful [remove] takes away *)

Lemma live_from_remove_split i (pts : list (ptr * bool)) id p :
  (id, p) ∈ live_from i pts →
  ∃ es1 es2 : list (nat * ptr), live_from i pts = es1 ++ (id, p) :: es2
    ∧ live_from i (alter (λ e, (e.1, true)) (id - i) pts) = es1 ++ es2.
Proof.
  revert i. induction pts as [|[p' r] pts IH]; intros i; simpl.
  - by intros ?%elem_of_nil.
  - intros Hin. destruct (decide (id = i)) as [->|Hne].
    + rewrite Nat.sub_diag. simpl.
      destruct r.
      * apply live_from_lookup in Hin as [Hese _]. lia.
      * apply elem_of_cons in Hin as [[= <-]|Hin].
        -- by exists [], (live_from (S i) pts).
        -- apply live_from_lookup in Hin as [Hese _]. lia.
    + assert ((id, p) ∈ live_from (S i) pts) as Hin'.
      { destruct r; [done|].
        apply elem_of_cons in Hin as [[= ? ?]|?]; [lia|done]. }
      pose proof (live_from_lookup _ _ _ _ Hin') as [Hese _].
      destruct (IH _ Hin') as (es1 & es2 & Hes & Hes').
      replace (id - i) with (S (id - S i)) by lia. simpl.
      unfold alter in Hes'. rewrite Hes, Hes'.
      destruct r; [by exists es1, es2|by exists ((i, p') :: es1), es2].
Qed.

Lemma stored_removePoint s idx id p vs :
  index_ s = Some idx → (id, p) ∈ live idx → stored s = Some vs →
  ∃ y vs2, deref (data_ s) p = Some y
    ∧ stored (set_index (Some (index_removePoint id idx)) s) = Some vs2
    ∧ vs ≡ₚ y :: vs2.
Proof.
  intros Hidx Hin Hvs. unfold stored in *. rewrite Hidx in Hvs. simpl.
  unfold live in *. simpl.
  destruct (live_from_remove_split 0 _ _ _ Hin) as (es1 & es2 & Hes & Hes').
  rewrite Nat.sub_0_r in Hes'. rewrite Hes', Hes in *.
  apply mapM_Some_1, Forall2_app_inv_l in Hvs as (k1 & k2 & Hk1 & Hk2 & ->).
  apply Forall2_cons_inv_l in Hk2 as (y & k2' & Hy & Hk2 & ->).
  exists y, (k1 ++ k2'). split; [done|]. split.
  - apply mapM_Some_2. by apply Forall2_app.
  - by rewrite Permutation_middle.
Qed.

(** On a readable store with at least one element, [remove] returns
    true exactly when [nearest] returns the argument itself, and then
    takes one copy of it away and nothing else; otherwise it changes
    nothing. *)
Lemma remove_one x s vs :
  index_ok s → size s ≠ 0 → stored s = Some vs →
  ∃ y b s', nearest x s = Ret y ∧ remove x s = Some (b, s')
    ∧ (b = true ↔ y = x)
    ∧ (if b then in_step s' ∧ vs ≡ₚ x :: elements (data_ s') else s' = s).
Proof.
  intros Hok Hsz Hvs.
  destruct (remove_spec x s Hok Hsz) as (y & b & s' & Hn & Hrm & Hb & Hres).
  exists y, b, s'. split; [done|]. split; [done|]. split; [done|].
  destruct b; [|done]. destruct Hres as [_ Hstep]. split; [done|].
  assert (y = x) as -> by by apply Hb.
  unfold remove in Hrm. destruct (index_ s) as [idx|] eqn:Hidx; [|done].
  apply bind_Some in Hrm as (ids & Hids & Hrm).
  apply bind_Some in Hrm as (first & Hfirst & Hrm).
  apply bind_Some in Hrm as (elt & Helt & Hrm).
  case_decide as Heq; [|done]. subst elt.
  apply bind_Some in Hrm as (s2 & Hs2 & [= <-]).
  destruct (index_knnSearch_live _ _ _ _ _ _ first Hids) as [p Hp].
  { destruct ids; [done|]. injection Hfirst as ->. by left. }
  rewrite (getPoint_live _ _ _ _ Hp) in Helt.
  destruct (stored_removePoint s idx first p vs Hidx Hp Hvs)
    as (y & vs2 & Hy & Hvs2 & Hperm).
  rewrite Hy in Helt. injection Helt as ->.
  destruct (rebuildIndex_spec 0 _ vs2
              (index_ok_removePoint s idx first Hok Hidx)
              (mk_is_Some _ _ eq_refl) Hvs2)
    as (s2' & Hs2' & _ & Hel & _).
  rewrite Hs2 in Hs2'. injection Hs2' as <-. by rewrite Hperm, Hel.
Qed.

(** ** The bulk [add] onto an index, in full *)

Lemma vec_copy_cells l i v :
  i + length l ≤ capacity v →
  ∃ v', vec_copy l i v = Some v' ∧ block v' = block v ∧ vsize v' = vsize v
    ∧ cells v' = take i (cells v) ++ (Some <$> l)
                   ++ drop (i + length l) (cells v).
Proof.
  revert i v. induction l as [|x l IH]; intros i v Hle; simpl in *.
  - exists v. rewrite Nat.add_0_r, take_drop. done.
  - unfold vec_write. destruct (Nat.ltb_spec i (capacity v)); [|lia]. simpl.
    destruct (IH (S i) (mkVector (block v) (<[i:=Some x]> (cells v)) (vsize v)))
      as (v' & Hv' & Hb & Hn & Hc).
    { unfold capacity in *. simpl. rewrite length_insert. lia. }
    exists v'. split; [done|]. split; [done|]. split; [done|].
    rewrite Hc. simpl.
    erewrite take_S_r by (by apply list_lookup_insert_eq).
    rewrite take_insert_ge, drop_insert_lt, <- app_assoc by lia.
    simpl. do 3 f_equal. f_equal. lia.
Qed.

Lemma vec_copy_bound l i v v' :
  vec_copy l i v = Some v' → i ≤ capacity v → i + length l ≤ capacity v.
Proof.
  revert i v. induction l as [|x l IH]; intros i v; simpl; [lia|].
  intros (v1 & Hw & Hc)%bind_Some _. unfold vec_write in Hw.
  destruct (Nat.ltb_spec i (capacity v)); [|done]. injection Hw as <-.
  apply IH in Hc; unfold capacity in *; simpl in *;
    rewrite length_insert in *; lia.
Qed.

Lemma matrix_app b n k :
  matrix (b, 0) n ++ matrix (b, n) k = matrix (b, 0) (n + k).
Proof.
  induction k as [|k IH].
  - rewrite Nat.add_0_r. apply app_nil_r.
  - rewrite Nat.add_succ_r, (matrix_S b n k), (matrix_S b 0 (n + k)).
    by rewrite app_assoc, IH.
Qed.

(** On a store in step that has an index, the bulk [add] always
    returns.  The index then holds the old elements and the batch, and
    [size()] has grown by the batch; the batch lies behind the end of
    the buffer, whose length and logical contents are the old ones. *)
Lemma add_vec_onto_index l s :
  in_step s → is_Some (index_ s) →
  fits_uint (2 * vsize (data_ s) + length l) →
  ∃ s' vs, add_vec l s = Some s'
    ∧ stored s' = Some (vs ++ l) ∧ vs ≡ₚ elements (data_ s)
    ∧ elements (data_ s') = vs
    ∧ size s' = size s + length l
    ∧ vsize (data_ s') = vsize (data_ s).
Proof.
  intros Hstep Hsome Hfits.
  pose proof Hstep as (Hle & Hw & _).
  pose proof (length_elements _ Hle Hw) as Hlen.
  assert (∃ s', add_vec l s = Some s') as [s' Hadd].
  { unfold add_vec, add_vec_with.
    rewrite !to_uint_small by (eapply fits_uint_le; [|done]; lia).
    assert (∃ s1, (if bool_decide (is_Some (index_ s))
                      && (capacity (data_ s) <? vsize (data_ s) + length l)
                   then rebuildIndex
                          ((2 * vsize (data_ s)) `max` (vsize (data_ s) + length l)) s
                   else Some s) = Some s1
                  ∧ is_Some (index_ s1) ∧ vsize (data_ s1) = vsize (data_ s)
                  ∧ vsize (data_ s) + length l ≤ capacity (data_ s1))
      as (s1 & -> & [idx1 Hidx1] & Hn1 & Hcap1).
    { rewrite bool_decide_eq_true_2 by done. cbn [andb].
      destruct (Nat.ltb_spec (capacity (data_ s)) (vsize (data_ s) + length l)).
      - destruct (rebuildIndex_spec
                    ((2 * vsize (data_ s)) `max` (vsize (data_ s) + length l))
                    s (elements (data_ s)))
          as (s1 & Hs1 & Hstep1 & Hp & _ & Hcap & (idx' & Hidx' & _) & _);
          [by apply in_step_index_ok|done|by apply in_step_stored|].
        exists s1. split; [done|]. split; [by rewrite Hidx'|].
        destruct Hstep1 as (Hle1 & Hw1 & _).
        rewrite <- (length_elements _ Hle1 Hw1), Hp, Hlen. split; [done|lia].
      - exists s. by split_and!. }
    cbn [mbind option_bind]. rewrite Hidx1.
    destruct (vec_copy_cells l (vsize (data_ s)) (data_ s1) Hcap1)
      as (d & -> & _). by eexists. }
  exists s', (elements (data_ s')).
  split; [done|].
  pose proof (add_vec_size _ _ _ Hadd) as Hsz.
  unfold add_vec, add_vec_with in Hadd.
  rewrite !to_uint_small in Hadd by (eapply fits_uint_le; [|done]; lia).
  apply bind_Some in Hadd as (s1 & Hs1 & Hadd).
  assert (in_step s1 ∧ elements (data_ s1) ≡ₚ elements (data_ s)
          ∧ is_Some (index_ s1)) as (Hstep1 & Hp & [idx1 Hidx1]).
  { destruct (_ && _) in Hs1; [|by injection Hs1 as <-].
    destruct (rebuildIndex_spec
                ((2 * vsize (data_ s)) `max` (vsize (data_ s) + length l))
                s (elements (data_ s)))
      as (s1' & Hs1' & Hstep1 & Hp & _ & _ & (idx' & Hidx' & _) & _);
      [by apply in_step_index_ok|done|by apply in_step_stored|].
    rewrite Hs1 in Hs1'. injection Hs1' as <-. by rewrite Hidx'. }
  pose proof Hstep1 as (Hle1 & Hw1 & Hpts1).
  pose proof (length_elements _ Hle1 Hw1) as Hlen1.
  assert (vsize (data_ s1) = vsize (data_ s)) as Hn1 by (by rewrite <- Hlen1, Hp).
  rewrite Hidx1 in Hadd, Hpts1.
  apply bind_Some in Hadd as (d & Hd & [= <-]). simpl.
  assert (vsize (data_ s) + length l ≤ capacity (data_ s1)) as Hcap1.
  { eapply vec_copy_bound; [done|]. unfold capacity in *. lia. }
  destruct (vec_copy_cells l (vsize (data_ s)) (data_ s1) Hcap1)
    as (d' & Hd' & Hb & Hn & Hc).
  rewrite Hd in Hd'. injection Hd' as <-.
  assert (elements d = elements (data_ s1)) as Hel.
  { unfold elements. rewrite Hn, Hc, Hn1, take_app_le, take_take;
      [by rewrite Nat.min_id|].
    rewrite length_take. unfold capacity in Hle1. lia. }
  rewrite Hel, Hn, Hn1. split_and!; try done.
  set (s2 := set_index
               (Some (index_addPoints (block d, vsize (data_ s)) (length l) idx1))
               (set_data (mkVector (block d) (cells d)
                                   (vsize (data_ s) + length l)) s1)).
  change (stored s2 = Some (elements (data_ s1) ++ l)).
  assert (take (vsize (data_ s2)) (cells (data_ s2))
          = Some <$> (elements (data_ s1) ++ l)) as Hw2.
  { simpl. rewrite Hc, fmap_app, <- Hw1, Hn1, app_assoc.
    apply take_app_length'.
    rewrite length_app, length_take, length_fmap.
    unfold capacity in Hle1. lia. }
  rewrite <- (elements_prefix _ _ Hw2). apply in_step_stored.
  split_and!.
  - pose proof (vec_copy_frame _ _ _ _ Hd) as (Hcapd & _).
    unfold capacity in *. simpl. lia.
  - rewrite (elements_prefix _ _ Hw2). exact Hw2.
  - simpl. rewrite Hpts1, Hb, Hn1. apply matrix_app.
Qed.

(** ** Queries as functions of the buffer *)

Lemma getPoint_in_step s idx id :
  in_step s → index_ s = Some idx →
  getPoint s idx id = elements (data_ s) !! id.
Proof.
  intros (Hle & Hw & Hpts) Hidx. rewrite Hidx in Hpts.
  pose proof (length_elements _ Hle Hw) as Hlen.
  unfold getPoint, index_getPoint. rewrite Hpts. unfold matrix.
  rewrite list_lookup_fmap.
  destruct (decide (id < vsize (data_ s))) as [Hlt|Hge].
  - rewrite lookup_seq_lt by done. simpl. by apply deref_in_range.
  - rewrite lookup_seq_ge by lia. simpl. symmetry.
    apply lookup_ge_None_2. lia.
Qed.

Lemma candidates_in_step s idx q :
  in_step s → index_ s = Some idx →
  candidates (data_ s) (distFun_ s) idx q
  = Some (imap (λ i x, (distFun_ s q x, i)) (elements (data_ s))).
Proof.
  intros (Hle & Hw & Hpts) Hidx. rewrite Hidx in Hpts.
  pose proof (length_elements _ Hle Hw) as Hlen.
  unfold candidates, live. rewrite Hpts, live_from_matrix. simpl.
  apply mapM_Some_2, Forall2_fmap_l, Forall2_lookup. intros i.
  rewrite list_lookup_imap.
  destruct (decide (i < vsize (data_ s))) as [Hlt|Hge].
  - rewrite lookup_seq_lt by done.
    destruct (lookup_lt_is_Some_2 (elements (data_ s)) i) as [x Hx]; [lia|].
    rewrite Hx. constructor. simpl. rewrite deref_in_range by done.
    by rewrite Hx.
  - rewrite lookup_seq_ge by lia.
    rewrite (lookup_ge_None_2 (elements (data_ s))) by lia. constructor.
Qed.

(** On a store in step, [nearestK] depends on the buffer's elements and
    the distance function only. *)
Lemma nearestK_in_step x k s :
  in_step s → nearestK x k s = knn (distFun_ s) x k (elements (data_ s)).
Proof.
  intros Hstep. unfold nearestK, knn.
  destruct (index_ s) as [idx|] eqn:Hidx.
  - unfold index_knnSearch. rewrite candidates_in_step by done. simpl.
    apply mapM_ext. intros id. by apply getPoint_in_step.
  - destruct Hstep as (_ & _ & Hz). rewrite Hidx in Hz.
    unfold elements. rewrite Hz, take_0. simpl.
    by rewrite merge_sort_dist_nil, take_nil.
Qed.

(** ** More on queries and on [add] followed by [remove] *)

Lemma nearestK_prefix_all x s vs :
  stored s = Some vs →
  ∃ vs', vs' ≡ₚ vs ∧ StronglySorted (nearer (distFun_ s) x) vs'
         ∧ ∀ k, nearestK x k s = Some (take k vs').
Proof.
  intros Hvs. unfold nearestK.
  destruct (index_ s) as [idx|] eqn:Hidx.
  - destruct (candidates_stored s idx x vs Hidx Hvs) as (c & Hc & HF).
    destruct (Forall2_Permutation_l _ _ (merge_sort dist_le c) _
                (symmetry (merge_sort_Permutation dist_le c)) HF)
      as (vs' & Hp & HF').
    exists vs'. split; [done|]. split.
    + eapply hit_sorted; [done|]. apply StronglySorted_merge_sort; apply _.
    + intros k. unfold index_knnSearch. rewrite Hc. simpl.
      apply mapM_Some_2, Forall2_fmap_l, (Forall2_take _ _ _ k).
      eapply Forall2_impl; [done|]. by intros ? ? [? _].
  - unfold stored in Hvs. rewrite Hidx in Hvs. injection Hvs as <-.
    exists []. split; [done|]. split; [constructor|].
    intros k. by rewrite take_nil.
Qed.

(** [nearest] returns a stored element that no stored element beats. *)
Lemma nearest_min x s vs :
  stored s = Some vs → size s ≠ 0 →
  ∃ y, nearest x s = Ret y ∧ y ∈ vs
    ∧ ∀ z, z ∈ vs → Qle (distFun_ s x y) (distFun_ s x z).
Proof.
  intros Hvs Hsz.
  destruct (nearestK_prefix_all x s vs Hvs) as (vs' & Hp & Hsorted & Hk).
  pose proof (size_stored _ _ Hvs) as Hlen.
  pose proof (Permutation_length Hp) as Hlen'.
  destruct vs' as [|y vs']; [simpl in Hlen'; lia|].
  exists y. split; [|split].
  - apply nearest_nearestK. rewrite Hk. simpl. by rewrite take_0.
  - rewrite <- Hp. by left.
  - intros z Hz. rewrite <- Hp in Hz.
    apply StronglySorted_inv in Hsorted as [_ Hall].
    apply elem_of_cons in Hz as [->|Hz]; [apply Qle_refl|].
    by eapply Forall_forall in Hall.
Qed.

Lemma add_elements x s :
  in_step s → fits_uint (2 * capacity (data_ s)) →
  ∃ s', add x s = Some s' ∧ in_step s'
    ∧ elements (data_ s') ≡ₚ elements (data_ s) ++ [x].
Proof.
  intros Hstep Hfits.
  destruct (add_spec x s Hstep Hfits)
    as (s' & Hadd & Hstep' & _ & Hrebuild & Hplace & Hnone).
  exists s'. split; [done|]. split; [done|].
  pose proof Hstep as (Hle & Hw & Hidx).
  destruct (index_ s) as [idx|] eqn:Hi;
    [destruct (decide (capacity (data_ s) < vsize (data_ s) + 1))
       as [Hfull|Hroom]|].
  - destruct Hrebuild as (s1 & _ & _ & Hp & _ & Hel & _); [done..|].
    by rewrite Hel, Hp.
  - destruct Hplace as (_ & _ & _ & Hel & _); [done|lia|]. by rewrite Hel.
  - destruct Hnone as (_ & _ & Hel); [done|].
    rewrite Hel. unfold elements. by rewrite Hidx.
Qed.

Lemma remove_true_index x s s' :
  remove x s = Some (true, s') → is_Some (index_ s') ∧ in_step s'.
Proof.
  unfold remove. destruct (index_ s) as [idx|] eqn:Hidx; [|done].
  intros (ids & _ & (first & _ & (elt & _ & Hrm)%bind_Some)%bind_Some)%bind_Some.
  case_decide; [|done]. apply bind_Some in Hrm as (s2 & Hs2 & [= <-]).
  destruct (rebuildIndex_Some _ _ _ Hs2 (mk_is_Some _ _ eq_refl))
    as (Hstep & _ & _ & _ & (idx' & Hidx' & _) & _).
  split; [by rewrite Hidx'|done].
Qed.

(** ** The single-element [add] whenever it returns *)

(** When [list] returns, every live point of the index could be read. *)
Lemma list_returns_stored s l s' :
  list_ s = Some (l, s') → ∃ vs, stored s = Some vs ∧ l ≡ₚ vs.
Proof.
  unfold list_. case_decide as Hz.
  - intros [= <- <-]. exists []. split; [|done].
    unfold stored, size in *. destruct (index_ s) as [idx|]; [|done].
    unfold index_size in Hz. apply nil_length_inv in Hz. by rewrite Hz.
  - intros (idx & Hidx & (dummy & Hd & (data & Hk & [= <- <-])%bind_Some)
                           %bind_Some)%bind_Some.
    assert (is_Some (stored s)) as [vs Hvs].
    { unfold nearestK in Hk. simpl in Hk. rewrite Hidx in Hk.
      apply bind_Some in Hk as (ids & Hids & _).
      unfold index_knnSearch in Hids. apply bind_Some in Hids as (c & Hc & _).
      unfold stored. rewrite Hidx. apply mapM_is_Some_2.
      assert (is_Some (candidates (data_ s) (distFun_ s) idx dummy)) as Hsome
        by (by eexists).
      apply mapM_is_Some_1 in Hsome. eapply Forall_impl; [exact Hsome|].
      intros e [y Hy]. simpl in Hy. apply bind_Some in Hy as (v & Hv & _).
      by eexists. }
    exists vs. split; [done|].
    destruct (nearestK_prefix dummy (size s)
                (set_checks (to_int (Z.of_nat (size s))) s) vs)
      as (vs' & Hp & _ & Hk'); [done|].
    rewrite Hk in Hk'. injection Hk' as ->.
    rewrite take_ge; [done|]. by rewrite Hp, <- (size_stored _ _ Hvs).
Qed.

(** What [rebuildIndex] has done when it returns, whatever the state
    of the store was. *)
Lemma rebuildIndex_returns n s s' :
  rebuildIndex n s = Some s' → is_Some (index_ s) →
  ∃ vs, stored s = Some vs
    ∧ in_step s'
    ∧ elements (data_ s') ≡ₚ vs
    ∧ rebuild_log_ s' = n :: rebuild_log_ s
    ∧ capacity (data_ s') = (capacity (data_ s) `max` n) `max` length vs.
Proof.
  intros Hs' [idx Hidx].
  unfold rebuildIndex, rebuildIndex_with in Hs'. rewrite Hidx in Hs'.
  apply bind_Some in Hs' as ([data s1] & Hl & Hadd).
  destruct (list_returns_stored _ _ _ Hl) as (vs & Hvs & Hp).
  apply list_unchanged in Hl as ->. simpl in Hadd.
  rewrite add_vec_with_noindex in Hadd by (by case_decide).
  injection Hadd as <-. exists vs. split; [done|].
  split; [apply in_step_build|].
  simpl. rewrite elements_assign, capacity_assign.
  split; [done|]. split; [by case_decide|].
  case_decide as Hn; simpl.
  - subst n. rewrite Hp. unfold capacity. simpl. lia.
  - by rewrite capacity_reserve_clear, Hp.
Qed.

(** [push_back] on a vector whose logical range is written: in place
    when there is room, into a new allocation of [size + max size 1]
    cells when the vector is full. *)
Lemma push_back_any x v l :
  take (vsize v) (cells v) = Some <$> l → vsize v ≤ capacity v →
  elements (vec_push_back x v) = l ++ [x]
  ∧ capacity (vec_push_back x v)
    = (if vsize v <? capacity v then capacity v
       else vsize v + (vsize v `max` 1))
  ∧ block (vec_push_back x v)
    = (if vsize v <? capacity v then block v else S (block v)).
Proof.
  intros Hw Hle. unfold elements, vec_push_back, capacity in *.
  destruct (Nat.ltb_spec (vsize v) (length (cells v))) as [Hlt|Hge]; simpl.
  - split; [|split; [by rewrite length_insert|done]].
    erewrite take_S_r by (by apply list_lookup_insert_eq).
    by rewrite take_insert_ge, Hw, omap_app, omap_id_Some.
  - assert (vsize v = length (cells v)) as Hfull by lia.
    rewrite take_ge in Hw by lia.
    split; [|split; [|done]].
    + rewrite (take_ge (cells v)) by lia.
      rewrite cons_middle, (assoc_L (++)).
      rewrite take_app_length' by (rewrite length_app; simpl; lia).
      by rewrite Hw, omap_app, omap_id_Some.
    + rewrite length_app, length_take. simpl. rewrite length_replicate. lia.
Qed.

(** The single-element [add] in every state in which it returns.  With
    an index and room in the buffer the element is written in place
    behind the logical range and appended to the index.  With an index
    and a full buffer, [rebuildIndex] is asked for twice the capacity and
    rebuilds from the elements the index holds; the capacity afterwards
    is the capacity of the rebuilt buffer when this has room for one
    more element, and the [push_back] reallocates otherwise, which
    leaves the new index behind. *)
Lemma add_returns x s s' :
  add x s = Some s' →
  (is_Some (index_ s) → vsize (data_ s) + 1 ≤ capacity (data_ s) →
     s' = pushed x s
     ∧ data_ s' = mkVector (block (data_ s))
                           (<[vsize (data_ s) := Some x]> (cells (data_ s)))
                           (S (vsize (data_ s)))
     ∧ rebuild_log_ s' = rebuild_log_ s
     ∧ ∃ idx, index_ s = Some idx
         ∧ index_ s' = Some (index_addPoints
                               (block (data_ s), vsize (data_ s)) 1 idx))
  ∧ (is_Some (index_ s) → capacity (data_ s) < vsize (data_ s) + 1 →
     ∃ s1 vs, rebuildIndex (to_uint (2 * capacity (data_ s))) s = Some s1
       ∧ stored s = Some vs
       ∧ in_step s1 ∧ elements (data_ s1) ≡ₚ vs
       ∧ capacity (data_ s1)
         = (capacity (data_ s) `max` to_uint (2 * capacity (data_ s)))
             `max` size s
       ∧ s' = pushed x s1
       ∧ elements (data_ s') = elements (data_ s1) ++ [x]
       ∧ rebuild_log_ s' = to_uint (2 * capacity (data_ s)) :: rebuild_log_ s
       ∧ capacity (data_ s')
         = (if size s <? capacity (data_ s1) then capacity (data_ s1)
            else size s + (size s `max` 1))
       ∧ (in_step s' ↔ size s < capacity (data_ s1) ∨ size s = 0)).
Proof.
  intros Hadd. rewrite add_unfold in Hadd. split.
  - intros Hsome Hroom. destruct Hsome as [idx Hidx].
    assert ((capacity (data_ s) <? vsize (data_ s) + 1) = false) as Hc
      by (apply Nat.ltb_ge; lia).
    rewrite Hc, andb_false_r in Hadd. simpl in Hadd. injection Hadd as <-.
    split; [done|]. unfold pushed, vec_push_back. simpl.
    assert ((vsize (data_ s) <? capacity (data_ s)) = true) as ->
      by (apply Nat.ltb_lt; lia).
    rewrite Hidx. simpl. rewrite Nat.sub_0_r. split; [done|].
    split; [done|]. by exists idx.
  - intros Hsome Hfull.
    assert ((capacity (data_ s) <? vsize (data_ s) + 1) = true) as Hc
      by (by apply Nat.ltb_lt).
    rewrite Hc, bool_decide_eq_true_2 in Hadd by done. simpl in Hadd.
    apply bind_Some in Hadd as (s1 & Hrb & [= <-]).
    destruct (rebuildIndex_returns _ _ _ Hrb Hsome)
      as (vs & Hvs & Hstep & Hp & Hlog & Hcap).
    pose proof (size_stored _ _ Hvs) as Hsz.
    pose proof (in_step_size _ Hstep) as Hn.
    rewrite (rebuildIndex_size _ _ _ Hrb) in Hn.
    destruct (pushed_fields x s1) as (Hd & _).
    pose proof Hstep as (Hle & Hw & Hpts).
    destruct (push_back_any x _ _ Hw Hle) as (He & Hc' & Hb).
    rewrite <- Hsz in Hcap. rewrite <- Hn in Hc'.
    exists s1, vs. rewrite Hd, He, Hc'.
    split_and!; try done.
    + unfold pushed. simpl. destruct (index_ s1); simpl; by rewrite Hlog.
    + split; [|intros Hroom; apply in_step_pushed; [done|lia]].
      intros (_ & _ & Hpts').
      destruct (decide (size s < capacity (data_ s1))) as [|Hge]; [by left|].
      right. destruct (decide (size s = 0)) as [|Hnz]; [done|exfalso].
      destruct (index_ s1) as [idx1|] eqn:Hidx1; [|lia].
      assert ((vsize (data_ s1) <? capacity (data_ s1)) = false) as Hf
        by (apply Nat.ltb_ge; lia).
      rewrite Hf in Hb.
      unfold pushed in Hpts'. cbn [data_ index_ set_data set_index] in Hpts'.
      rewrite Hidx1 in Hpts'. cbn [data_ index_ set_data set_index] in Hpts'.
      unfold index_addPoints in Hpts'. cbn [points] in Hpts'.
      rewrite Hb, vsize_push_back, Hpts in Hpts'.
      destruct (vsize (data_ s1)) as [|n']; [lia|].
      unfold matrix in Hpts'. simpl in Hpts'. injection Hpts' as Hblk _. lia.
Qed.

End More.

Section MoreRuns.
Context {T : Type} `{EqDecision T}.
Implicit Types (s : NearestNeighborsFLANN T) (m : mutation T).

Lemma mutate_all_steps (ms : list (mutation T)) s s' :
  mutate_all ms s = Some s' →
  capacity (data_ s) ≤ capacity (data_ s')
  ∧ dimension_ s' = dimension_ s
  ∧ (sound s → sound s').
Proof.
  revert s. induction ms as [|m ms IH]; intros s; simpl.
  - by intros [= <-].
  - intros (s1 & Hm & Hms)%bind_Some.
    apply mutate_step in Hm as (Hcap & _ & _ & _ & Hdim & Hsound).
    apply IH in Hms as (Hcap' & Hdim' & Hsound').
    split; [lia|]. split; [by rewrite Hdim'|]. intros ?. by apply Hsound', Hsound.
Qed.

End MoreRuns.

(** * Further theorems *)

Section Extras.
Context {T : Type} `{EqDecision T}.
Implicit Types (s : NearestNeighborsFLANN T) (x : T) (l : list T).

(** X1. On a readable store with at least one element, [nearest]
    returns a stored element that is at least as near to the query as
    every stored element, and it is the single element [nearestK]
    returns for [k = 1]. *)
Theorem nearest_returns_a_closest_element s x :
  index_ok s → size s ≠ 0 →
  ∃ y vs, stored s = Some vs ∧ nearest x s = Ret y
    ∧ nearestK x 1 s = Some [y]
    ∧ y ∈ vs
    ∧ ∀ z, z ∈ vs → Qle (distFun_ s x y) (distFun_ s x z).
Proof.
  intros [vs Hvs]%stored_defined Hsz.
  destruct (nearest_min x s vs Hvs Hsz) as (y & Hn & Hin & Hmin).
  exists y, vs. split_and!; try done. by apply nearest_nearestK.
Qed.

(** X3. On a readable store with fewer than [2^31] elements,
    [nearestR] returns, nearest first, exactly the stored elements whose
    distance to the query is at most the radius. *)
Theorem nearestR_within_radius s x (r : Q) :
  index_ok s → (Z.of_nat (size s) < 2 ^ 31)%Z →
  ∃ vs nbh, stored s = Some vs ∧ nearestR x r s = Ret nbh
    ∧ StronglySorted (nearer (distFun_ s) x) nbh
    ∧ nbh ≡ₚ within (distFun_ s) x r vs.
Proof.
  intros [vs Hvs]%stored_defined Hfit.
  destruct (nearestR_spec x r s vs Hvs Hfit) as (vs' & Hp & Hsorted & Hr).
  exists vs, (within (distFun_ s) x r vs'). split_and!; try done.
  - by apply StronglySorted_filter.
  - unfold within. by rewrite Hp.
Qed.

(** X4. [list] never changes the store, the search parameters
    included, and returns [size()] elements; on a readable store these
    are the elements the index holds, each once. *)
Theorem list_enumerates_index s :
  (∀ l s', list_ s = Some (l, s') → s' = s ∧ length l = size s)
  ∧ (index_ok s →
       ∃ l vs, stored s = Some vs ∧ list_ s = Some (l, s) ∧ l ≡ₚ vs).
Proof.
  split.
  - intros l s' Hl. split; [by eapply list_unchanged|by eapply list_length].
  - intros Hok. destruct (stored_defined _ Hok) as [vs Hvs].
    destruct (list_stored s vs Hok Hvs) as (l & Hl & Hp). by exists l, vs.
Qed.

(** X5. [rebuildIndex] does nothing without an index.  With a readable
    index it builds a new index over the elements the old one held and
    leaves buffer and index in step, whatever their relation was before;
    [size()] and the settings are kept, and the capacity is at least the
    one asked for and at least the old one. *)
Theorem rebuildIndex_restores_step n s :
  (index_ s = None → rebuildIndex n s = Some s)
  ∧ (index_ok s → is_Some (index_ s) →
       ∃ vs s', stored s = Some vs ∧ rebuildIndex n s = Some s'
         ∧ in_step s' ∧ elements (data_ s') ≡ₚ vs
         ∧ size s' = size s
         ∧ n ≤ capacity (data_ s')
         ∧ capacity (data_ s) ≤ capacity (data_ s')
         ∧ same_config s s').
Proof.
  split; [apply rebuildIndex_None|]. intros Hok Hsome.
  destruct (stored_defined _ Hok) as [vs Hvs].
  destruct (rebuildIndex_spec n s vs Hok Hsome Hvs)
    as (s' & Hs' & Hstep & Hp & _).
  destruct (rebuildIndex_Some n s s' Hs' Hsome)
    as (_ & Hsz & Hcap & Hn & _ & Hcfg).
  exists vs, s'. by split_and!.
Qed.

(** X6. Without an index [remove] returns false.  On a readable store
    with at least one element it returns true exactly when the element
    [nearest] returns equals the argument; it then takes one copy of the
    argument out of the store and keeps every other element, and
    otherwise it leaves the store as it was. *)
Theorem remove_takes_one_copy s x :
  (index_ s = None → remove x s = Some (false, s))
  ∧ (index_ok s → size s ≠ 0 →
       ∃ vs y b s', stored s = Some vs ∧ nearest x s = Ret y
         ∧ remove x s = Some (b, s')
         ∧ (b = true ↔ y = x)
         ∧ (if b then in_step s' ∧ vs ≡ₚ x :: elements (data_ s')
                      ∧ size s = S (size s')
            else s' = s)).
Proof.
  split.
  - intros Hidx. unfold remove. by rewrite Hidx.
  - intros Hok Hsz. destruct (stored_defined _ Hok) as [vs Hvs].
    destruct (remove_one x s vs Hok Hsz Hvs) as (y & b & s' & Hn & Hrm & Hb & Hres).
    exists vs, y, b, s'. split_and!; try done.
    destruct b; [|done]. destruct Hres as [Hstep Hp]. split_and!; try done.
    by apply (remove_size _ _ _ _ Hrm).
Qed.

(** X7. When [remove] has taken the only element, the store is left
    with an index that holds nothing, and every further [remove] reads
    the first id of an empty search result: its behaviour is
    undefined. *)
Theorem remove_undefined_once_emptied s x s' :
  size s = 1 → remove x s = Some (true, s') →
  is_Some (index_ s') ∧ size s' = 0 ∧ ∀ y, remove y s' = None.
Proof.
  intros Hone Hrm. pose proof (remove_size _ _ _ _ Hrm) as Hsz. simpl in Hsz.
  destruct (remove_true_index _ _ _ Hrm) as [Hsome _].
  assert (size s' = 0) as Hz by lia.
  split; [done|]. split; [done|]. intros y. by apply remove_empty_index.
Qed.

(** X8. The bulk [add] on a store without an index makes the batch the
    buffer, in its order, and builds an index over it without any
    rebuild; an index is built even when the batch is empty. *)
Theorem add_vec_without_index s l :
  index_ s = None →
  ∃ s', add_vec l s = Some s' ∧ in_step s'
    ∧ elements (data_ s') = l ∧ stored s' = Some l
    ∧ size s' = length l
    ∧ is_Some (index_ s')
    ∧ rebuild_log_ s' = rebuild_log_ s
    ∧ capacity (data_ s') = capacity (data_ s) `max` length l.
Proof.
  intros Hidx. destruct (add_vec_new l s Hidx) as (s' & Hadd & Hstep & Hel & Hlog).
  exists s'. split_and!; try done.
  - by rewrite (in_step_stored _ Hstep), Hel.
  - rewrite (add_vec_size _ _ _ Hadd). unfold size. by rewrite Hidx.
  - unfold add_vec in Hadd. rewrite add_vec_with_noindex in Hadd by done.
    by injection Hadd as <-.
  - unfold add_vec in Hadd. rewrite add_vec_with_noindex in Hadd by done.
    injection Hadd as <-. simpl. apply capacity_assign.
Qed.

(** X9. In every state the bulk [add] calls [rebuildIndex] exactly when
    an index exists and the new length exceeds the capacity, with the
    larger of twice the old length and the new length; both lengths and
    the doubling are 32-bit [unsigned int] values. *)
Theorem add_vec_rebuild_policy s l s' :
  add_vec l s = Some s' →
  rebuild_log_ s'
  = if bool_decide (is_Some (index_ s))
       && (capacity (data_ s)
           <? to_uint (to_uint (vsize (data_ s)) + length l))
    then to_uint (2 * to_uint (vsize (data_ s)))
           `max` to_uint (to_uint (vsize (data_ s)) + length l)
         :: rebuild_log_ s
    else rebuild_log_ s.
Proof. apply add_vec_log. Qed.

(** X10. On a store in step that has an index, the bulk [add] returns
    and the index then holds the old elements followed by the batch, so
    [size()] grows by the length of the batch; the buffer keeps its old
    length and logical contents, so a non-empty batch leaves the index
    ahead of the buffer. *)
Theorem add_vec_onto_index_outcome s l :
  in_step s → is_Some (index_ s) →
  fits_uint (2 * vsize (data_ s) + length l) →
  ∃ s' vs, add_vec l s = Some s'
    ∧ stored s' = Some (vs ++ l) ∧ vs ≡ₚ elements (data_ s)
    ∧ elements (data_ s') = vs
    ∧ size s' = size s + length l
    ∧ vsize (data_ s') = vsize (data_ s)
    ∧ (l ≠ [] → ¬ in_step s').
Proof.
  intros Hstep Hsome Hfits.
  destruct (add_vec_onto_index l s Hstep Hsome Hfits)
    as (s' & vs & Hadd & Hst & Hp & Hel & Hsz & Hn).
  exists s', vs. split_and!; try done.
  intros Hl. eapply add_vec_out_of_step; try done. by apply in_step_index_ok.
Qed.

(** X11. Elements added one at a time to a new store are all stored:
    the run never fails, it leaves buffer and index in step, and the
    buffer holds exactly the elements added. *)
Theorem adds_one_at_a_time (params : IndexParams) (dist : T → T → Q)
    (xs : list T) :
  fits_uint (4 * length xs + 2) →
  ∃ s, run (Add <$> xs) (new_store params dist, 0, 0)
       = Some (s, length xs, 0)
    ∧ in_step s ∧ elements (data_ s) ≡ₚ xs ∧ size s = length xs.
Proof.
  intros Hfits.
  destruct (run_adds xs (new_store params dist) 0 0)
    as (s & Hrun & Hstep & Hel); [apply in_step_new|unfold roomy; compute; lia|done|].
  exists s. split_and!; try done.
  pose proof (in_step_size _ Hstep) as Hsz.
  destruct Hstep as (Hle & Hw & _).
  by rewrite Hsz, <- (length_elements _ Hle Hw), Hel.
Qed.

(** X12. Every operation other than the bulk [add] onto an existing
    index keeps buffer and index in step. *)
Theorem in_step_kept s :
  in_step s →
  in_step (clear s)
  ∧ (∀ sp, in_step (setSearchParams sp s))
  ∧ (∀ x s', fits_uint (2 * capacity (data_ s)) →
       add x s = Some s' → in_step s')
  ∧ (∀ l s', index_ s = None → add_vec l s = Some s' → in_step s')
  ∧ (∀ x b s', remove x s = Some (b, s') → in_step s')
  ∧ (∀ n s', rebuildIndex n s = Some s' → in_step s')
  ∧ (∀ fn s', setDistanceFunction fn s = Some s' → in_step s')
  ∧ (∀ p s', setIndexParams p s = Some s' → in_step s').
Proof. apply in_step_preserved. Qed.

(** X13. A call changes no setting but the one it sets: the distance
    function changes only by [setDistanceFunction], the index
    parameters only by [setIndexParams], the search parameters only by
    [setSearchParams] (the setters store their argument), and nothing
    changes the dimension. *)
Theorem calls_change_only_their_setting (m : mutation T) s s' :
  mutate m s = Some s' →
  distFun_ s' = match m with
                | MSetDistanceFunction distFun => distFun
                | _ => distFun_ s
                end
  ∧ getIndexParams s' = match m with
                        | MSetIndexParams params => params
                        | _ => getIndexParams s
                        end
  ∧ getSearchParams s' = match m with
                         | MSetSearchParams searchParams => searchParams
                         | _ => getSearchParams s
                         end
  ∧ getContainerSize s' = getContainerSize s.
Proof.
  intros (_ & Hf & Hp & Hsp & Hdim & _)%mutate_step. by split_and!.
Qed.

(** X14. In every store that a sequence of calls produces from a new
    store, the buffer's length is within its capacity and at most
    [size()], a missing index means an empty buffer, an index was built
    with the parameters the store holds, and the dimension is 1. *)
Theorem reachable_stores_sound (params : IndexParams) (dist : T → T → Q)
    (ms : list (mutation T)) s :
  mutate_all ms (new_store params dist) = Some s →
  sound s ∧ getContainerSize s = 1.
Proof.
  intros (_ & Hdim & Hsound)%mutate_all_steps. split; [|done].
  apply Hsound, in_step_sound; [apply in_step_new|done].
Qed.

(** X15. No sequence of calls makes the buffer's capacity smaller: not
    [clear], and not the rebuild after a [remove]. *)
Theorem capacity_never_shrinks (ms : list (mutation T)) s s' :
  mutate_all ms s = Some s' →
  capacity (data_ s) ≤ capacity (data_ s').
Proof. by intros (Hcap & _)%mutate_all_steps. Qed.

(** X16. [clear] followed by a bulk [add] answers like a new store
    given the same batch: both calls return, both stores hold the batch,
    and [nearestK] gives the same answer on both for every query. *)
Theorem clear_then_add_like_new s l (params : IndexParams) :
  ∃ s1 s2, add_vec l (clear s) = Some s1
    ∧ add_vec l (new_store params (distFun_ s)) = Some s2
    ∧ in_step s1 ∧ in_step s2
    ∧ elements (data_ s1) = l ∧ elements (data_ s2) = l
    ∧ size s1 = size s2
    ∧ ∀ x k, nearestK x k s1 = nearestK x k s2.
Proof.
  destruct (add_vec_new l (clear s) eq_refl) as (s1 & Hs1 & Hstep1 & Hel1 & _).
  destruct (add_vec_new l (new_store params (distFun_ s)) eq_refl)
    as (s2 & Hs2 & Hstep2 & Hel2 & _).
  exists s1, s2. split_and!; try done.
  - by rewrite (add_vec_size _ _ _ Hs1), (add_vec_size _ _ _ Hs2).
  - intros x k. rewrite !nearestK_in_step, Hel1, Hel2 by done.
    apply add_vec_step in Hs1 as (_ & (Hf1 & _) & _).
    apply add_vec_step in Hs2 as (_ & (Hf2 & _) & _).
    by rewrite Hf1, Hf2.
Qed.

(** X17. On a store in step, adding an element that is strictly nearer
    to itself than every different stored element and then removing it
    succeeds, and leaves the elements that were stored before. *)
Theorem add_then_remove s x :
  in_step s → fits_uint (2 * capacity (data_ s)) →
  (∀ z, z ∈ elements (data_ s) → z ≠ x →
     Qlt (distFun_ s x x) (distFun_ s x z)) →
  ∃ s1 s2, add x s = Some s1 ∧ remove x s1 = Some (true, s2)
    ∧ in_step s2 ∧ elements (data_ s2) ≡ₚ elements (data_ s).
Proof.
  intros Hstep Hfits Hnear.
  destruct (add_elements x s Hstep Hfits) as (s1 & Hadd & Hstep1 & Hel).
  pose proof (add_step _ _ _ Hadd) as (_ & (Hf & _) & _).
  pose proof (in_step_stored _ Hstep1) as Hst1.
  pose proof Hstep1 as (Hle1 & Hw1 & _).
  assert (size s1 ≠ 0) as Hsz.
  { rewrite (in_step_size _ Hstep1), <- (length_elements _ Hle1 Hw1), Hel.
    rewrite length_app. simpl. lia. }
  destruct (nearest_min x s1 _ Hst1 Hsz) as (y & Hn & Hin & Hmin).
  assert (y = x) as ->.
  { destruct (decide (y = x)) as [|Hne]; [done|]. exfalso.
    rewrite Hel in Hin. apply elem_of_app in Hin as [Hin|Hin].
    - specialize (Hnear y Hin Hne).
      specialize (Hmin x). rewrite Hf in Hmin.
      apply (Qlt_not_le _ _ Hnear), Hmin. rewrite Hel.
      apply elem_of_app. right. by left.
    - apply list_elem_of_singleton in Hin. done. }
  destruct (remove_one x s1 _ (in_step_index_ok _ Hstep1) Hsz Hst1)
    as (y & b & s2 & Hn' & Hrm & Hb & Hres).
  rewrite Hn in Hn'. injection Hn' as <-.
  destruct b; [|by destruct Hb as [_ Hb]; discriminate (Hb eq_refl)].
  destruct Hres as [Hstep2 Hp]. exists s1, s2. split_and!; try done.
  rewrite Hel in Hp. rewrite <- Permutation_cons_append in Hp.
  by apply Permutation_cons_inv in Hp.
Qed.

(** X18. In every state, the single-element [add] runs [rebuildIndex]
    exactly when an index exists and the length plus one exceeds the
    capacity, and calls it with twice the capacity.  On a store whose
    buffer and index are in step and whose doubled capacity is
    representable as an [unsigned int], the rebuild builds the index
    from all current elements before the new one is pushed, and the
    capacity afterwards is twice the old one (one when the old capacity
    was zero).  When an index exists and the element fits, the element
    is written in place into the same allocation and appended to the
    same index, with no rebuild. *)
Theorem add_growth_policy s x :
  (∀ s', add x s = Some s' →
     rebuild_log_ s'
     = if bool_decide (is_Some (index_ s))
          && (capacity (data_ s) <? vsize (data_ s) + 1)
       then to_uint (2 * capacity (data_ s)) :: rebuild_log_ s
       else rebuild_log_ s)
  ∧ (in_step s → fits_uint (2 * capacity (data_ s)) →
       ∃ s', add x s = Some s' ∧ in_step s'
         ∧ (rebuild_log_ s' ≠ rebuild_log_ s ↔
              is_Some (index_ s) ∧ capacity (data_ s) < vsize (data_ s) + 1)
         ∧ (is_Some (index_ s) → capacity (data_ s) < vsize (data_ s) + 1 →
              ∃ s1, rebuildIndex (2 * capacity (data_ s)) s = Some s1
                ∧ in_step s1 ∧ elements (data_ s1) ≡ₚ elements (data_ s)
                ∧ s' = pushed x s1
                ∧ elements (data_ s') = elements (data_ s1) ++ [x]
                ∧ rebuild_log_ s' = 2 * capacity (data_ s) :: rebuild_log_ s
                ∧ capacity (data_ s') = (2 * capacity (data_ s)) `max` 1)
         ∧ (is_Some (index_ s) → vsize (data_ s) + 1 ≤ capacity (data_ s) →
              s' = pushed x s
              ∧ block (data_ s') = block (data_ s)
              ∧ capacity (data_ s') = capacity (data_ s)
              ∧ elements (data_ s') = elements (data_ s) ++ [x]
              ∧ rebuild_log_ s' = rebuild_log_ s
              ∧ ∃ idx, index_ s = Some idx
                  ∧ index_ s' = Some (index_addPoints
                                        (block (data_ s), vsize (data_ s)) 1 idx))).
Proof.
  split; [intros s'; apply add_log|].
  intros Hstep Hfits.
  destruct (add_spec x s Hstep Hfits)
    as (s' & Hadd & Hstep' & Hiff & Hrebuild & Hplace & _).
  by exists s'.
Qed.

(** X19. On a store whose index pointers can be read, [nearestK]
    returns elements the index holds, in ascending distance from the
    query; it returns [min k size()] of them, all of them when [k] is at
    least [size()], and the empty sequence on an empty store. *)
Theorem nearestK_ascending_capped s x k :
  index_ok s →
  ∃ vs nbh, stored s = Some vs ∧ nearestK x k s = Some nbh
    ∧ StronglySorted (nearer (distFun_ s) x) nbh
    ∧ nbh ⊆+ vs
    ∧ length nbh = k `min` size s
    ∧ (size s ≤ k → nbh ≡ₚ vs)
    ∧ (size s = 0 → nbh = []).
Proof.
  intros [vs Hvs]%stored_defined.
  destruct (nearestK_prefix x k s vs Hvs) as (vs' & Hp & Hsorted & Hk).
  pose proof (nearestK_length _ _ _ _ Hk) as Hlen.
  exists vs, (take k vs'). split_and!; try done.
  - rewrite <- (take_drop k vs') in Hsorted.
    by apply StronglySorted_app_1_l in Hsorted.
  - rewrite <- Hp. apply submseteq_take.
  - intros Hle. rewrite take_ge; [done|].
    by rewrite Hp, <- (size_stored _ _ Hvs).
  - intros Hz. apply nil_length_inv. rewrite Hlen, Hz. lia.
Qed.

(** X20. On a non-empty store whose index pointers can be read,
    [setDistanceFunction] and [setIndexParams] return after one run of
    [rebuildIndex] with capacity 0: the resulting store holds the new
    function or the new parameters, its buffer and index are in step
    over the elements the index held, the new index records the new
    parameters, and the answers of [nearestK] are ordered by the new
    function.  Without an index the setters only record the new value:
    [rebuildIndex] does nothing. *)
Theorem setters_force_rebuild s (fn : T → T → Q) (p : IndexParams) :
  index_ok s →
  (size s ≠ 0 →
     ∃ vs, stored s = Some vs
       ∧ (∃ s', setDistanceFunction fn s = Some s'
            ∧ rebuild_log_ s' = 0 :: rebuild_log_ s
            ∧ distFun_ s' = fn
            ∧ in_step s' ∧ elements (data_ s') ≡ₚ vs
            ∧ ∀ x k, ∃ nbh, nearestK x k s' = Some nbh
                ∧ StronglySorted (nearer fn x) nbh
                ∧ nbh ⊆+ elements (data_ s'))
       ∧ (∃ s' idx', setIndexParams p s = Some s'
            ∧ rebuild_log_ s' = 0 :: rebuild_log_ s
            ∧ params_ s' = p
            ∧ index_ s' = Some idx' ∧ built_with idx' = p
            ∧ in_step s' ∧ elements (data_ s') ≡ₚ vs))
  ∧ (index_ s = None →
       setDistanceFunction fn s = Some (set_distFun fn s)
       ∧ setIndexParams p s = Some (set_params p s)).
Proof.
  intros Hok. split.
  - intros Hsz. destruct (stored_defined _ Hok) as [vs Hvs].
    assert (is_Some (index_ s)) as Hsome.
    { unfold size in Hsz. by destruct (index_ s). }
    exists vs. split; [done|]. split.
    + destruct (rebuildIndex_spec 0 (set_distFun fn s) vs Hok Hsome Hvs)
        as (s' & Hs' & Hstep & Hp & Hlog & _ & _ & Hfn & _).
      exists s'. split_and!; try done.
      intros x k. simpl in Hfn. rewrite <- Hfn.
      by apply nearestK_sorted, in_step_stored.
    + destruct (rebuildIndex_spec 0 (set_params p s) vs Hok Hsome Hvs)
        as (s' & Hs' & Hstep & Hp & Hlog & _ & (idx' & Hidx' & Hbuilt) & _
            & Hparams & _).
      by exists s', idx'.
  - intros Hnone. unfold setDistanceFunction, setIndexParams.
    unfold rebuildIndex, rebuildIndex_with. simpl. by rewrite Hnone.
Qed.

(** X21. The single-element [add] in every state.  It returns whenever
    the index pointers can be read.  Whenever it returns: with an index
    and room in the buffer, the element is written in place into the
    cell behind the logical range, whatever that cell held, and appended
    to the same index, with no rebuild; with an index and a full buffer,
    [rebuildIndex] is asked for twice the capacity (as an [unsigned
    int]) and rebuilds buffer and index from the elements the index
    holds, the element is pushed behind them, and the capacity in the
    end is that of the rebuilt buffer, the largest of the old capacity,
    the capacity asked and [size()], when [size()] is below it, and
    [size() + max size() 1] otherwise.  In this last case the
    [push_back] has reallocated, and buffer and index are no longer in
    step unless the store held no element. *)
Theorem add_in_every_state s x :
  (index_ok s → is_Some (add x s))
  ∧ ∀ s', add x s = Some s' →
      (is_Some (index_ s) → vsize (data_ s) + 1 ≤ capacity (data_ s) →
         s' = pushed x s
         ∧ data_ s' = mkVector (block (data_ s))
                               (<[vsize (data_ s) := Some x]> (cells (data_ s)))
                               (S (vsize (data_ s)))
         ∧ rebuild_log_ s' = rebuild_log_ s
         ∧ ∃ idx, index_ s = Some idx
             ∧ index_ s' = Some (index_addPoints
                                   (block (data_ s), vsize (data_ s)) 1 idx))
      ∧ (is_Some (index_ s) → capacity (data_ s) < vsize (data_ s) + 1 →
         ∃ s1 vs, rebuildIndex (to_uint (2 * capacity (data_ s))) s = Some s1
           ∧ stored s = Some vs
           ∧ in_step s1 ∧ elements (data_ s1) ≡ₚ vs
           ∧ capacity (data_ s1)
             = (capacity (data_ s) `max` to_uint (2 * capacity (data_ s)))
                 `max` size s
           ∧ s' = pushed x s1
           ∧ elements (data_ s') = elements (data_ s1) ++ [x]
           ∧ rebuild_log_ s'
             = to_uint (2 * capacity (data_ s)) :: rebuild_log_ s
           ∧ capacity (data_ s')
             = (if size s <? capacity (data_ s1) then capacity (data_ s1)
                else size s + (size s `max` 1))
           ∧ (in_step s' ↔ size s < capacity (data_ s1) ∨ size s = 0)).
Proof.
  split; [|intros s'; apply add_returns].
  intros Hok. rewrite add_unfold.
  destruct (bool_decide (is_Some (index_ s)) && _) eqn:Hc; [|by eexists].
  apply andb_true_iff in Hc as [Hsome%bool_decide_eq_true _].
  destruct (stored_defined _ Hok) as [vs Hvs].
  destruct (rebuildIndex_spec (to_uint (2 * capacity (data_ s))) s vs
              Hok Hsome Hvs) as (s1 & -> & _).
  by eexists.
Qed.

End Extras.

(** ** Instances of the further theorems *)

Lemma store_ahead_readable : index_ok store_ahead ∧ ¬ in_step store_ahead.
Proof.
  split.
  - intros idx Hidx. vm_compute in Hidx. injection Hidx as <-.
    repeat constructor; by eexists.
  - intros Hs%in_step_size. by vm_compute in Hs.
Qed.

Lemma store_1_5_readable : index_ok store_1_5.
Proof. apply in_step_index_ok. in_step_by_evaluation. Qed.

Lemma nearest_returns_a_closest_element_witness :
  ∃ y, nearest 4%Z store_1_5 = Ret y
    ∧ Qle (absdist 4 y) (absdist 4 1) ∧ Qle (absdist 4 y) (absdist 4 5).
Proof.
  destruct (nearest_returns_a_closest_element store_1_5 4%Z)
    as (y & vs & Hvs & Hn & _ & _ & Hmin);
    [apply in_step_index_ok; in_step_by_evaluation|by vm_compute|].
  assert (stored store_1_5 = Some [1; 5]%Z) as Hst by (vm_compute; reflexivity).
  rewrite Hst in Hvs. injection Hvs as <-.
  exists y. split; [exact Hn|].
  split; apply Hmin; [by left|by right; left].
Defined.

Lemma nearestR_within_radius_witness :
  ∃ nbh, nearestR 4%Z 2 store_1_5 = Ret nbh ∧ nbh ≡ₚ [5]%Z.
Proof.
  destruct (nearestR_within_radius store_1_5 4%Z 2)
    as (vs & nbh & Hvs & Hr & _ & Hp);
    [apply in_step_index_ok; in_step_by_evaluation|by vm_compute|].
  assert (stored store_1_5 = Some [1; 5]%Z) as Hst by (vm_compute; reflexivity).
  rewrite Hst in Hvs. injection Hvs as <-.
  exists nbh. split; [exact Hr|exact Hp].
Defined.

Lemma list_enumerates_index_witness :
  ∃ l, list_ store_ahead = Some (l, store_ahead) ∧ l ≡ₚ [1; 2; 3]%Z.
Proof.
  destruct (list_enumerates_index store_ahead) as [_ Hlist].
  destruct Hlist as (l & vs & Hvs & Hl & Hp).
  { apply store_ahead_readable. }
  assert (stored store_ahead = Some [1; 2; 3]%Z) as Hst
    by (vm_compute; reflexivity).
  rewrite Hst in Hvs. injection Hvs as <-.
  exists l. split; [exact Hl|exact Hp].
Defined.

Lemma rebuildIndex_restores_step_witness :
  ∃ s', rebuildIndex 0 store_ahead = Some s' ∧ in_step s'
    ∧ elements (data_ s') ≡ₚ [1; 2; 3]%Z.
Proof.
  destruct (rebuildIndex_restores_step 0 store_ahead) as [_ Hrebuild].
  destruct Hrebuild as (vs & s' & Hvs & Hs' & Hstep & Hp & _).
  { apply store_ahead_readable. }
  { vm_compute. by eexists. }
  assert (stored store_ahead = Some [1; 2; 3]%Z) as Hst
    by (vm_compute; reflexivity).
  rewrite Hst in Hvs. injection Hvs as <-.
  exists s'. split; [exact Hs'|]. split; [exact Hstep|exact Hp].
Defined.

Lemma remove_takes_one_copy_witness :
  ∃ s', remove 5%Z store_1_5 = Some (true, s')
    ∧ [1; 5]%Z ≡ₚ 5%Z :: elements (data_ s').
Proof.
  destruct (remove_takes_one_copy store_1_5 5%Z) as [_ Hremove].
  destruct Hremove as (vs & y & b & s' & Hvs & Hn & Hrm & Hb & Hres);
    [apply in_step_index_ok; in_step_by_evaluation|by vm_compute|].
  assert (stored store_1_5 = Some [1; 5]%Z) as Hst by (vm_compute; reflexivity).
  assert (nearest 5%Z store_1_5 = Ret 5%Z) as Hn5 by (vm_compute; reflexivity).
  rewrite Hst in Hvs. injection Hvs as <-.
  rewrite Hn5 in Hn. injection Hn as <-.
  destruct b; [|by destruct Hb as [_ Hb]; discriminate (Hb eq_refl)].
  destruct Hres as (_ & Hp & _). exists s'. split; [exact Hrm|exact Hp].
Defined.

Lemma remove_undefined_once_emptied_witness :
  ∃ s', remove 5%Z store_5 = Some (true, s') ∧ size s' = 0
    ∧ remove 5%Z s' = None.
Proof.
  exists (default fresh (snd <$> remove 5%Z store_5)).
  assert (remove 5%Z store_5
          = Some (true, default fresh (snd <$> remove 5%Z store_5))) as Hrm
    by (by vm_compute).
  destruct (remove_undefined_once_emptied store_5 5%Z _ eq_refl Hrm)
    as (_ & Hz & Hnone).
  by split_and!.
Defined.

Lemma add_vec_without_index_witness :
  ∃ s', add_vec [] fresh = Some s' ∧ is_Some (index_ s') ∧ size s' = 0.
Proof.
  destruct (add_vec_without_index fresh [] eq_refl)
    as (s' & Hadd & _ & _ & _ & Hsz & Hsome & _).
  by exists s'.
Defined.

Lemma add_vec_rebuild_policy_witness : rebuild_log_ store_ahead = [4].
Proof.
  assert (add_vec [3]%Z store_1_2 = Some store_ahead) as Hadd
    by (by vm_compute).
  rewrite (add_vec_rebuild_policy store_1_2 [3]%Z store_ahead Hadd).
  by vm_compute.
Defined.

Lemma add_vec_onto_index_outcome_witness :
  ∃ s', add_vec [3]%Z store_1_2 = Some s'
    ∧ stored s' = Some [1; 2; 3]%Z ∧ elements (data_ s') = [1; 2]%Z.
Proof.
  destruct (add_vec_onto_index_outcome store_1_2 [3]%Z)
    as (s' & vs & Hadd & Hst & _ & Hel & _);
    [in_step_by_evaluation|vm_compute; by eexists|by vm_compute|].
  assert (add_vec [3]%Z store_1_2 = Some store_ahead) as Hadd'
    by (by vm_compute).
  rewrite Hadd in Hadd'. injection Hadd' as ->.
  exists store_ahead. split; [done|]. split; by vm_compute.
Defined.

Lemma adds_one_at_a_time_witness :
  ∃ s, run (Add <$> [1; 5; 9; 3]%Z) (fresh, 0, 0) = Some (s, 4, 0)
    ∧ elements (data_ s) ≡ₚ [1; 5; 9; 3]%Z.
Proof.
  destruct (adds_one_at_a_time LinearIndexParams absdist [1; 5; 9; 3]%Z)
    as (s & Hrun & _ & Hel & _); [by vm_compute|].
  exists s. split; [exact Hrun|exact Hel].
Defined.

Lemma in_step_kept_witness :
  in_step (clear store_1_5)
  ∧ ∀ s', add 9%Z store_1_5 = Some s' → in_step s'.
Proof.
  destruct (in_step_kept store_1_5) as (Hclear & _ & Hadd & _);
    [in_step_by_evaluation|].
  split; [done|]. intros s'. apply Hadd. by vm_compute.
Defined.

Lemma calls_change_only_their_setting_witness :
  ∃ s', mutate (MSetIndexParams KDTreeIndexParams) store_1_5 = Some s'
    ∧ getIndexParams s' = KDTreeIndexParams
    ∧ getSearchParams s' = mkSearchParams 32 0 true.
Proof.
  exists (default fresh
            (mutate (MSetIndexParams KDTreeIndexParams) store_1_5)).
  assert (mutate (MSetIndexParams KDTreeIndexParams) store_1_5
          = Some (default fresh
                    (mutate (MSetIndexParams KDTreeIndexParams) store_1_5)))
    as Hm by (by vm_compute).
  destruct (calls_change_only_their_setting _ _ _ Hm) as (_ & Hp & Hsp & _).
  by split_and!.
Defined.

Lemma reachable_stores_sound_witness :
  ∃ s, mutate_all [MAddVec [1; 2]%Z; MAddVec [3]%Z; MAdd 4%Z; MRemove 4%Z;
                   MClear; MAdd 7%Z] fresh = Some s
    ∧ sound s.
Proof.
  eexists. split; [vm_compute; reflexivity|].
  eapply (reachable_stores_sound LinearIndexParams absdist
            [MAddVec [1; 2]%Z; MAddVec [3]%Z; MAdd 4%Z; MRemove 4%Z;
             MClear; MAdd 7%Z]).
  vm_compute. reflexivity.
Defined.

Lemma capacity_never_shrinks_witness :
  ∃ s, mutate_all [MRemove 5%Z; MClear] store_1_5 = Some s
    ∧ 2 ≤ capacity (data_ s).
Proof.
  eexists. split; [vm_compute; reflexivity|].
  apply (capacity_never_shrinks [MRemove 5%Z; MClear] store_1_5).
  vm_compute. reflexivity.
Defined.

Lemma add_then_remove_witness :
  ∃ s1 s2, add 9%Z store_1_5 = Some s1 ∧ remove 9%Z s1 = Some (true, s2)
    ∧ elements (data_ s2) ≡ₚ [1; 5]%Z.
Proof.
  destruct (add_then_remove store_1_5 9%Z)
    as (s1 & s2 & Hadd & Hrm & _ & Hp);
    [in_step_by_evaluation|by vm_compute|
     |exists s1, s2; split; [exact Hadd|split; [exact Hrm|exact Hp]]].
  intros z Hz _. change (z ∈ [1; 5]%Z) in Hz.
  apply elem_of_cons in Hz as [->|Hz]; [by vm_compute|].
  apply list_elem_of_singleton in Hz as ->. by vm_compute.
Defined.

Lemma add_growth_policy_witness :
  in_step store_1_5 ∧ fits_uint (2 * capacity (data_ store_1_5))
  ∧ ∃ s', add 9%Z store_1_5 = Some s' ∧ in_step s'
      ∧ capacity (data_ s') = 4 ∧ rebuild_log_ s' = [4; 2].
Proof.
  split; [in_step_by_evaluation|].
  split; [by vm_compute|].
  destruct (add_growth_policy store_1_5 9%Z) as [_ Hpolicy].
  destruct Hpolicy as (s' & Hadd & Hstep & _ & Hrebuild & _);
    [in_step_by_evaluation|by vm_compute|].
  destruct Hrebuild as (s1 & _ & _ & _ & _ & _ & Hlog & Hcap);
    [by eexists|vm_compute; lia|].
  by exists s'.
Defined.

Lemma nearestK_ascending_capped_witness :
  ∃ nbh, nearestK 4%Z 7 store_1_5 = Some nbh
    ∧ StronglySorted (nearer absdist 4%Z) nbh ∧ nbh ≡ₚ [1; 5]%Z.
Proof.
  destruct (nearestK_ascending_capped store_1_5 4%Z 7)
    as (vs & nbh & Hvs & Hk & Hsorted & _ & _ & Hall & _).
  { apply in_step_index_ok.
    in_step_by_evaluation. }
  exists nbh. split; [done|]. split; [done|].
  injection Hvs as <-. apply Hall. vm_compute. lia.
Defined.

Lemma setters_force_rebuild_witness :
  ∃ s', setIndexParams KDTreeIndexParams store_1_5 = Some s'
    ∧ params_ s' = KDTreeIndexParams
    ∧ rebuild_log_ s' = [0; 2].
Proof.
  destruct (setters_force_rebuild store_1_5 (λ a b, absdist b a)
              KDTreeIndexParams) as [Hrebuild _].
  { apply in_step_index_ok.
    in_step_by_evaluation. }
  destruct Hrebuild as (vs & _ & _ & s' & idx' & Hs' & Hlog & Hp & _);
    [by vm_compute|].
  by exists s'.
Defined.

Lemma add_in_every_state_witness :
  ∃ s s', bulks_single = Some s ∧ add 5%Z s = Some s' ∧ ¬ in_step s'.
Proof.
  exists (default fresh bulks_single), (default fresh bulks_single_single).
  assert (add 5%Z (default fresh bulks_single)
          = Some (default fresh bulks_single_single)) as Hadd
    by (vm_compute; reflexivity).
  split; [vm_compute; reflexivity|]. split; [exact Hadd|].
  destruct (add_in_every_state (default fresh bulks_single) 5%Z) as [_ Hret].
  destruct (Hret _ Hadd) as [_ Hrebuild].
  destruct Hrebuild
    as (s1 & vs & _ & _ & _ & _ & Hcap1 & _ & _ & _ & _ & Hiff);
    [vm_compute; by eexists|vm_compute; lia|].
  intros Hstep. pose proof (proj1 Hiff Hstep) as Hroom.
  rewrite Hcap1 in Hroom. vm_compute in Hroom. lia.
Defined.
